(** * The world-state reducer and DAG layout of src/components/Main.tsx

    A shallow embedding of the [World] class: the diff ordering check, the
    merge of a [MemoryDiff] into the world (head log, validator set, tree
    index, attestations, votes) and the layout of blocks and attestations
    ([layoutDag]).

    Modelling choices.
    - JavaScript numbers that the decoder accepts for pointers, slots,
      indices and counts are integers here ([Z]).  The sum
      [diff.diffIndex + 1] is the sum of doubles ([numAdd]): it is
      rounded, so that [2^53 + 1] is [2^53].
    - [Record<BlockPtr, _>] objects are [gmap Z _]; [hasOwnProperty] and
      the truthiness test on a looked-up entry are [is_Some] of the lookup.
    - A PIXI container is the list of its children in insertion order;
      [getChildByName] returns the first child carrying the name.  An
      object reference into a container ([PixiAttestation.head],
      [PixiValidator.lastVotes]) is the index of the child in that list:
      children are never removed, so an index names one object for ever.
    - [position] records the two arguments of the last [position.set]
      call on the sprite.  [undefined * 40] is [NaN].
    - The [while (true)] walk of [layoutDag] and the recursion of
      [process_block] take fuel; [None] stands for a run that does not
      return.
    - The validator grid ([updateValGridSize]) and the translation of the
      two containers at the end of [layoutDag] only move sprites with
      floating-point arithmetic on the viewport size; they are not part
      of the embedding.  [drawRelations] is embedded as a counter of its
      runs, as is the number of [layoutDag] runs. *)

From stdpp Require Import gmap list strings sorting.
From Stdlib Require Import ZArith Lia.

Local Open Scope Z_scope.

(** ** Numbers *)

(** A JavaScript number is an IEEE-754 double.  The integers among the
    doubles are those of magnitude up to [2^53] and, above, the multiples
    of [2^(e-52)] between [2^e] and [2^(e+1)].  [toDouble z] is the double
    next to the integer [z], a tie going to the even significand: what an
    operation on doubles returns when its exact result is [z].  ([z] stays
    below the overflow threshold wherever it is used: it is a double
    plus one.) *)
Definition toDouble (z : Z) : Z :=
  let a := Z.abs z in
  if a <? 2 ^ 53 then z
  else
    let step := 2 ^ (Z.log2 a - 52) in
    let q := a / step in
    let r := a mod step in
    let q' := if 2 * r <? step then q
              else if step <? 2 * r then q + 1
              else if Z.even q then q else q + 1 in
    Z.sgn z * (q' * step).

(** [a + b] on numbers. *)
Definition numAdd (a b : Z) : Z := toDouble (a + b).

(** The integers [n] for which [n + 1] is exact. *)
Definition succExact (n : Z) : Prop := - 2 ^ 53 ≤ n < 2 ^ 53.

#[global] Instance succExact_dec (n : Z) : Decision (succExact n).
Proof. unfold succExact. apply _. Defined.

(** ** Diff messages *)

Record FFG := mkFFG { ffg_source : Z; ffg_target : Z; ffg_head : Z }.

Record ValidatorCounts := mkValidatorCounts {
  total : Z;
  active : Z;
  slashed : Z;
  eligible : Z;
  nonEligible : Z;
  exiting : Z;
  withdrawable : Z
}.

Record Eth1Data := mkEth1Data {
  depositRoot : string;
  depositCount : Z;
  blockHash : string
}.

Module HeadSummary.
Record t := mk {
    headBlock : Z;
    slot : Z;
    proposerIndex : Z;
    validatorCounts : ValidatorCounts;
    totalStaked : Z;
    avgBalance : Z;
    depositIndex : Z;
    eth1Data : Eth1Data;
    previousFFG : FFG;
    currentFFG : FFG
  }.
End HeadSummary.

Module BlockSummary.
Record t := mk { selfPtr : Z; htr : string; slot : Z; parent : Z }.
End BlockSummary.

Module AttestationSummary.
Record t := mk {
    selfPtr : Z;
    slot : Z;
    commIndex : Z;
    head : Z;
    target : Z;
    source : Z
  }.
End AttestationSummary.

Record VoteSummary := mkVote { validatorIndex : Z; attestationPtr : Z }.

Record MemoryState := mkMemoryState {
  ms_head : Z;
  ms_finalized : Z;
  ms_blocks : Z;
  ms_attestations : Z;
  ms_latestVotes : Z
}.

Module MemoryDiff.
Record t := mk {
    diffIndex : Z;
    previous : MemoryState;
    head : list HeadSummary.t;
    finalized : list Z;
    blocks : list BlockSummary.t;
    attestations : list AttestationSummary.t;
    latestVotes : list VoteSummary
  }.
End MemoryDiff.

(** ** Sprites *)

Inductive Coord := Num (z : Z) | NaN.

Definition Point : Type := Coord * Coord.

Definition ZERO_POS : Point := (Num 0, Num 0).

#[global] Instance Coord_eq_dec : EqDecision Coord.
Proof. solve_decision. Defined.

Module PixiBlock.
Record t := mk { block : BlockSummary.t; position : Point }.
  (* constructor(block) *)
Definition new (b : BlockSummary.t) : t := mk b ZERO_POS.
End PixiBlock.

Module PixiAttestation.
Record t := mk {
    attestation : AttestationSummary.t;
    source : option nat;
    target : option nat;
    head : option nat;
    position : Point
  }.
  (* constructor(attestation, source, target, head) *)
Definition new (a : AttestationSummary.t) (src tgt hd : option nat) : t :=
    mk a src tgt hd ZERO_POS.
End PixiAttestation.

(** [this.lastVotes.sort((a, b) => a.attestation.target - b.attestation.target)]:
    a stable sort, ascending in the key. *)
Section Sort.
Context {A : Type} (key : A → Z).

Fixpoint insert_sorted (x : A) (l : list A) : list A :=
    match l with
    | [] => [x]
    | y :: l' => if key x <? key y then x :: y :: l'
                 else y :: insert_sorted x l'
    end.

Definition sort_by (l : list A) : list A :=
    fold_left (λ acc x, insert_sorted x acc) l [].
End Sort.

Module PixiValidator.
Record t := mk { index : Z; lastVotes : list nat }.

  (* constructor(index) *)
Definition new (i : Z) : t := mk i [].

  (** The comparator reads [a.attestation.target] through the reference. *)
Definition voteKey (atts : list PixiAttestation.t) (ref : nat) : Z :=
    default 0 (AttestationSummary.target ∘ PixiAttestation.attestation <$> atts !! ref).

  (** [addVote(att)]: push, sort, keep [slice(0, 3)] when longer than 3. *)
Definition addVote (atts : list PixiAttestation.t) (v : t) (att : nat) : t :=
    let pushed := lastVotes v ++ [att] in
    let sorted := sort_by (voteKey atts) pushed in
    mk (index v) (if (3 <? length sorted)%nat then take 3 sorted else sorted).
End PixiValidator.

(** ** The tree index *)

Record TreeEntry := mkTreeEntry {
  parent : Z;
  slot : Z;
  children : list Z
}.

(** ** The world *)

Record World := mkWorld {
  valCount : Z;
  blocks : list PixiBlock.t;
  attestations : list PixiAttestation.t;
  validators : list PixiValidator.t;
  head : list HeadSummary.t;
  finalized : list Z;
  tree : gmap Z TreeEntry;
  nextDiffIndex : option Z;
  layoutRuns : nat;
  relationDraws : nat
}.

(** The world as its constructor leaves it. *)
Definition newWorld : World :=
  mkWorld 0 [] [] [] [] [] ∅ None 0 0.

Definition getBlock (w : World) (blockPtr : Z) : option nat :=
  fst <$> list_find (λ pb, BlockSummary.selfPtr (PixiBlock.block pb) = blockPtr) (blocks w).

Definition getAttestation (w : World) (attPtr : Z) : option nat :=
  fst <$> list_find
    (λ pa, AttestationSummary.selfPtr (PixiAttestation.attestation pa) = attPtr)
    (attestations w).

Definition getValidator (w : World) (vi : Z) : option nat :=
  fst <$> list_find (λ pv, PixiValidator.index pv = vi) (validators w).

(** [updateValSet(newValCount)]: one new validator for every [vi] with
    [valCount <= vi < newValCount]. *)
Definition updateValSet (w : World) (newValCount : Z) : World :=
  mkWorld newValCount (blocks w) (attestations w)
    (validators w ++ (PixiValidator.new <$> seqZ (valCount w) (newValCount - valCount w)))
    (head w) (finalized w) (tree w) (nextDiffIndex w)
    (layoutRuns w) (relationDraws w).

(** The [maxValCount] loop over [diff.head]. *)
Definition maxValCount (start : Z) (heads : list HeadSummary.t) : Z :=
  fold_left
    (λ m h, if total (HeadSummary.validatorCounts h) >? m
            then total (HeadSummary.validatorCounts h) else m)
    heads start.

(** The body of the block loop, on the tree.  [prevSelf] is a reference to
    the entry stored under [selfPtr]: the test [prevSelf.parent == 0] runs
    after [prevSelf.parent = b.parent] and reads the entry as it then is. *)
Definition mergeTree (tr : gmap Z TreeEntry) (b : BlockSummary.t) : gmap Z TreeEntry :=
  let self := BlockSummary.selfPtr b in
  let prevSelf := tr !! self in
  let tr1 :=
    match prevSelf with
    | Some e => <[self := mkTreeEntry (BlockSummary.parent b) (BlockSummary.slot b) (children e)]> tr
    | None => <[self := mkTreeEntry (BlockSummary.parent b) (BlockSummary.slot b) [self]]> tr
    end in
  match tr1 !! BlockSummary.parent b with
  | Some prevParent =>
      let unset :=
        match prevSelf with
        | None => true
        | Some _ => match tr1 !! self with
                    | Some e' => parent e' =? 0
                    | None => false
                    end
        end in
      if unset
      then <[BlockSummary.parent b :=
               mkTreeEntry (parent prevParent) (slot prevParent)
                           (children prevParent ++ [self])]> tr1
      else tr1
  | None => <[BlockSummary.parent b := mkTreeEntry 0 0 [self]]> tr1
  end.

Definition addBlock (w : World) (b : BlockSummary.t) : World :=
  mkWorld (valCount w) (blocks w ++ [PixiBlock.new b]) (attestations w)
    (validators w) (head w) (finalized w) (mergeTree (tree w) b)
    (nextDiffIndex w) (layoutRuns w) (relationDraws w).

Definition addAttestation (w : World) (a : AttestationSummary.t) : World :=
  mkWorld (valCount w) (blocks w)
    (attestations w ++
       [PixiAttestation.new a
          (getBlock w (AttestationSummary.source a))
          (getBlock w (AttestationSummary.target a))
          (getBlock w (AttestationSummary.head a))])
    (validators w) (head w) (finalized w) (tree w)
    (nextDiffIndex w) (layoutRuns w) (relationDraws w).

Definition setValidators (w : World) (vs : list PixiValidator.t) : World :=
  mkWorld (valCount w) (blocks w) (attestations w) vs (head w) (finalized w)
    (tree w) (nextDiffIndex w) (layoutRuns w) (relationDraws w).

(** The body of the vote loop: both lookups [continue] on [null]. *)
Definition applyVote (w : World) (vote : VoteSummary) : World :=
  match getValidator w (validatorIndex vote) with
  | None => w
  | Some vref =>
      match getAttestation w (attestationPtr vote) with
      | None => w
      | Some att =>
          match validators w !! vref with
          | Some val =>
              setValidators w
                (<[vref := PixiValidator.addVote (attestations w) val att]> (validators w))
          | None => w
          end
      end
  end.

(** ** Layout *)

Record LayoutSt := mkLayoutSt {
  order : gmap Z Z;
  slotHeights : gmap Z Z
}.

(** A [for ... of] loop whose body may fail to return. *)
Fixpoint for_each {A S : Type} (body : S → A → option S) (l : list A) (s : S)
  : option S :=
  match l with
  | [] => Some s
  | x :: l' =>
      match body s x with
      | Some s' => for_each body l' s'
      | None => None
      end
  end.

(** The closure [process_block] of [layoutDag]. *)
Fixpoint process_block (fuel : nat) (tr : gmap Z TreeEntry) (b : Z) (st : LayoutSt)
  : option LayoutSt :=
  match fuel with
  | O => None
  | S fuel' =>
      match tr !! b with
      | None => Some st
      | Some treeData =>
          let h := match slotHeights st !! slot treeData with
                   | Some n => n + 1
                   | None => 1
                   end in
          let st1 := mkLayoutSt (<[b := h - 1]> (order st))
                                (<[slot treeData := h]> (slotHeights st)) in
          for_each
            (λ s child,
               match order s !! child with
               | Some _ => Some s
               | None => process_block fuel' tr child s
               end)
            (children treeData) st1
      end
  end.

(** The [while (true)] loop of [layoutDag], from [block] towards the root. *)
Fixpoint walk (fuel pfuel : nat) (tr : gmap Z TreeEntry) (block : Z) (st : LayoutSt)
  : option LayoutSt :=
  match fuel with
  | O => None
  | S fuel' =>
      match tr !! block with
      | None => Some st
      | Some treeData =>
          match process_block pfuel tr block st with
          | None => None
          | Some st' =>
              if parent treeData =? 0 then Some st'
              else walk fuel' pfuel tr (parent treeData) st'
          end
      end
  end.

Definition slotWidth : Z := 30.
Definition slotHeight : Z := 40.
Definition attOffsetX : Z := 10.
Definition attOffsetY : Z := 8.

(** [order] as [layoutDag] has it when the walk is over. *)
Definition dagOrder (fuel : nat) (w : World) : option (gmap Z Z) :=
  match last (head w) with
  | None => None
  | Some hd =>
      order <$> walk fuel fuel (tree w) (HeadSummary.headBlock hd)
                  (mkLayoutSt {[HeadSummary.headBlock hd := 0]} ∅)
  end.

(** [slotOrder * slotHeight] where [slotOrder = order[selfPtr]] may be
    [undefined]. *)
Definition orderCoord (ord : gmap Z Z) (ptr : Z) : Coord :=
  match ord !! ptr with
  | Some o => Num (o * slotHeight)
  | None => NaN
  end.

(** The body of the loop over [this.blocks.children]. *)
Definition placeBlock (ord : gmap Z Z) (pb : PixiBlock.t) : PixiBlock.t :=
  let blockSummary := PixiBlock.block pb in
  PixiBlock.mk blockSummary
    (Num (BlockSummary.slot blockSummary * slotWidth),
     orderCoord ord (BlockSummary.selfPtr blockSummary)).

(** The body of the loop over [this.attestations.children]; the state is
    [attCounts] and the attestations placed so far. *)
Definition placeAttestation (ord : gmap Z Z)
    (acc : gmap Z Z * list PixiAttestation.t) (att : PixiAttestation.t)
  : gmap Z Z * list PixiAttestation.t :=
  let attSummary := PixiAttestation.attestation att in
  let hd := AttestationSummary.head attSummary in
  let count := match acc.1 !! hd with
               | Some n => n + 1
               | None => 1
               end in
  let slotOrder := match ord !! hd with
                   | Some o => o
                   | None => 0
                   end in
  let attOrder := count - 1 in
  (<[hd := count]> acc.1,
   acc.2 ++ [PixiAttestation.mk attSummary
               (PixiAttestation.source att) (PixiAttestation.target att)
               (PixiAttestation.head att)
               (Num (AttestationSummary.slot attSummary * slotWidth + attOffsetX),
                Num (slotOrder * slotHeight + attOrder * attOffsetY))]).

Definition placeAttestations (ord : gmap Z Z) (atts : list PixiAttestation.t)
  : list PixiAttestation.t :=
  (fold_left (placeAttestation ord) atts (∅, [])).2.

Definition countLayout (w : World) : World :=
  mkWorld (valCount w) (blocks w) (attestations w) (validators w) (head w)
    (finalized w) (tree w) (nextDiffIndex w) (S (layoutRuns w)) (relationDraws w).

Definition layoutDag (fuel : nat) (w : World) : option World :=
  match last (head w) with
  | None => Some (countLayout w)
  | Some _ =>
      match dagOrder fuel w with
      | None => None
      | Some ord =>
          Some (mkWorld (valCount w)
                  (placeBlock ord <$> blocks w)
                  (placeAttestations ord (attestations w))
                  (validators w) (head w) (finalized w) (tree w)
                  (nextDiffIndex w) (S (layoutRuns w)) (relationDraws w))
      end
  end.

Definition drawRelations (w : World) : World :=
  mkWorld (valCount w) (blocks w) (attestations w) (validators w) (head w)
    (finalized w) (tree w) (nextDiffIndex w) (layoutRuns w) (S (relationDraws w)).

(** ** updateWorld *)

Inductive Status := too_old | ok | too_new.

Definition pushHead (w : World) (hs : list HeadSummary.t) : World :=
  mkWorld (valCount w) (blocks w) (attestations w) (validators w) (head w ++ hs)
    (finalized w) (tree w) (nextDiffIndex w) (layoutRuns w) (relationDraws w).

Definition pushFinalized (w : World) (fs : list Z) : World :=
  mkWorld (valCount w) (blocks w) (attestations w) (validators w) (head w)
    (finalized w ++ fs) (tree w) (nextDiffIndex w) (layoutRuns w) (relationDraws w).

Definition setNextDiffIndex (w : World) (i : Z) : World :=
  mkWorld (valCount w) (blocks w) (attestations w) (validators w) (head w)
    (finalized w) (tree w) (Some i) (layoutRuns w) (relationDraws w).

(** Head log and validator set. *)
Definition growValidators (w : World) (d : MemoryDiff.t) : World :=
  let w1 := pushHead w (MemoryDiff.head d) in
  let m := maxValCount (valCount w1) (MemoryDiff.head d) in
  if decide (m ≠ valCount w1) then updateValSet w1 m else w1.

(** The world when the vote loop starts. *)
Definition beforeVotes (w : World) (d : MemoryDiff.t) : World :=
  let w2 := pushFinalized (growValidators w d) (MemoryDiff.finalized d) in
  let w3 := fold_left addBlock (MemoryDiff.blocks d) w2 in
  fold_left addAttestation (MemoryDiff.attestations d) w3.

(** The world when [layoutDag] is called. *)
Definition merged (w : World) (d : MemoryDiff.t) : World :=
  fold_left applyVote (MemoryDiff.latestVotes d) (beforeVotes w d).

Definition rejects (w : World) (d : MemoryDiff.t) : option Status :=
  match nextDiffIndex w with
  | Some n =>
      if n <? MemoryDiff.diffIndex d then Some too_new
      else if n >? MemoryDiff.diffIndex d then Some too_old
      else None
  | None => None
  end.

Definition updateWorld (fuel : nat) (w : World) (d : MemoryDiff.t)
  : option (Status * World) :=
  match rejects w d with
  | Some r => Some (r, w)
  | None =>
      match layoutDag fuel (merged w d) with
      | None => None
      | Some w' =>
          Some (ok, setNextDiffIndex (drawRelations w')
                  (numAdd (MemoryDiff.diffIndex d) 1))
      end
  end.

(** ** Auxiliary notions for the statements *)

(** Entries of the tree that have no order yet: the measure along which the
    recursion of [process_block] ends. *)
Definition unordered (tr : gmap Z TreeEntry) (st : LayoutSt) : nat :=
  size ((dom tr : gset Z) ∖ dom (order st)).

(** The walk from [block] towards the root leaves the loop within [k]
    parent steps: it meets a pointer without entry or a parent [0]. *)
Fixpoint spineEnds (tr : gmap Z TreeEntry) (k : nat) (block : Z) : bool :=
  match tr !! block with
  | None => true
  | Some treeData =>
      if parent treeData =? 0 then true
      else match k with
           | O => false
           | S k' => spineEnds tr k' (parent treeData)
           end
  end.

(** The same for the current head of a world. *)
Definition headSpineEnds (k : nat) (w : World) : bool :=
  match last (head w) with
  | None => true
  | Some hd => spineEnds (tree w) k (HeadSummary.headBlock hd)
  end.

(** Fuel that is enough for [layoutDag] on [w] when the spine from the head
    ends within [k] steps. *)
Definition enoughFuel (k : nat) (w : World) : nat :=
  S (S (k + size (dom (tree w) : gset Z))).

(** The world a call leaves behind ([w] itself when the call does not
    return within the fuel). *)
Definition worldAfter (fuel : nat) (w : World) (d : MemoryDiff.t) : World :=
  match updateWorld fuel w d with
  | Some (_, w') => w'
  | None => w
  end.

(** Two calls in a row. *)
Definition updateTwice (fuel : nat) (w : World) (d1 d2 : MemoryDiff.t)
  : option (Status * World) :=
  match updateWorld fuel w d1 with
  | Some (_, w1) => updateWorld fuel w1 d2
  | None => None
  end.

(** A vote whose validator and attestation both resolve in [w]. *)
Definition knownVote (w : World) (vote : VoteSummary) : Prop :=
  is_Some (getValidator w (validatorIndex vote))
  ∧ is_Some (getAttestation w (attestationPtr vote)).

#[global] Instance knownVote_dec (w : World) (vote : VoteSummary) :
  Decision (knownVote w vote).
Proof. unfold knownVote. apply _. Defined.

(** [d] without the votes that do not resolve when the vote loop of
    [updateWorld w d] starts. *)
Definition withoutUnknownVotes (w : World) (d : MemoryDiff.t) : MemoryDiff.t :=
  MemoryDiff.mk (MemoryDiff.diffIndex d) (MemoryDiff.previous d) (MemoryDiff.head d)
    (MemoryDiff.finalized d) (MemoryDiff.blocks d) (MemoryDiff.attestations d)
    (filter (knownVote (beforeVotes w d)) (MemoryDiff.latestVotes d)).

(** Children lists without repetition whose members all have an entry. *)
Definition treeOk (tr : gmap Z TreeEntry) : Prop :=
  ∀ p e, tr !! p = Some e →
    NoDup (children e) ∧ ∀ c, c ∈ children e → is_Some (tr !! c).

(** [order[ptr]] where an absent entry counts as [0]. *)
Definition orderOrZero (ord : gmap Z Z) (ptr : Z) : Z :=
  match ord !! ptr with
  | Some o => o
  | None => 0
  end.

(** How many of [atts] name [hd] as their head. *)
Definition sameHead (hd : Z) (atts : list PixiAttestation.t) : Z :=
  Z.of_nat (length (filter
    (λ a, AttestationSummary.head (PixiAttestation.attestation a) = hd) atts)).

(** ** Sample messages and worlds *)

Definition sampleMemory : MemoryState := mkMemoryState 0 0 0 0 0.

Definition sampleHead (headBlock slot total : Z) : HeadSummary.t :=
  HeadSummary.mk headBlock slot 0 (mkValidatorCounts total 0 0 0 0 0 0) 0 0 0
    (mkEth1Data "0x00" 0 "0x00") (mkFFG 0 0 0) (mkFFG 0 0 0).

Definition sampleBlock (selfPtr parent slot : Z) : BlockSummary.t :=
  BlockSummary.mk selfPtr "0x00" slot parent.

Definition sampleAtt (selfPtr slot head target : Z) : AttestationSummary.t :=
  AttestationSummary.mk selfPtr slot 0 head target 0.

(** A first block [1] under the root sentinel, head at [1], three validators. *)
Definition genesisDiff (i : Z) : MemoryDiff.t :=
  MemoryDiff.mk i sampleMemory [sampleHead 1 1 3] [] [sampleBlock 1 0 1] [] [].

Definition genesisWorld : World := worldAfter 5 newWorld (genesisDiff 0).

(** Three head summaries announcing 10, 25 and 7 validators. *)
Definition growingDiff (i : Z) : MemoryDiff.t :=
  MemoryDiff.mk i sampleMemory [sampleHead 1 1 10; sampleHead 1 2 25; sampleHead 1 3 7]
    [] [] [] [].

(** The world that expects the index [2^53], after a first diff of index
    [2^53 - 1]. *)
Definition edgeWorld : World := worldAfter 5 newWorld (growingDiff (2 ^ 53 - 1)).

(** A block that names itself as parent, and the head on it. *)
Definition selfParentDiff (i : Z) : MemoryDiff.t :=
  MemoryDiff.mk i sampleMemory [sampleHead 5 1 3] [] [sampleBlock 5 5 1] [] [].

(** A vote of validator [0] for attestation [99], which is not known yet. *)
Definition earlyVoteDiff (i : Z) : MemoryDiff.t :=
  MemoryDiff.mk i sampleMemory [] [] [] [] [mkVote 0 99].

(** Attestation [99] arrives, without votes. *)
Definition lateAttestationDiff (i : Z) : MemoryDiff.t :=
  MemoryDiff.mk i sampleMemory [] [] [] [sampleAtt 99 1 1 1] [].

(** Four attestations with targets 1, 2, 3, 4 and the votes of validator
    [0] for them, oldest first. *)
Definition fourVotesDiff (i : Z) : MemoryDiff.t :=
  MemoryDiff.mk i sampleMemory [] [] []
    [sampleAtt 11 1 1 1; sampleAtt 12 2 1 2; sampleAtt 13 3 1 3; sampleAtt 14 4 1 4]
    [mkVote 0 11; mkVote 0 12; mkVote 0 13; mkVote 0 14].

(** Block [1] under the root sentinel, block [3] whose parent [2] is not
    known yet (a placeholder is made for [2]), then block [2] itself, a
    child of [1]. *)
Definition rootBlock : BlockSummary.t := sampleBlock 1 0 1.

Definition grandchildBlock : BlockSummary.t := sampleBlock 3 2 3.

Definition lateParentBlock : BlockSummary.t := sampleBlock 2 1 2.

Definition placeholderTree : gmap Z TreeEntry :=
  fold_left mergeTree [rootBlock; grandchildBlock] ∅.

(** Block [1] under the root sentinel and a block [7] at slot 5 whose parent
    [9] never arrives; an attestation of slot 5 and two of slot 6 for head
    [1], one of slot 6 for the unknown head [4]. *)
Definition strayDiff (i : Z) : MemoryDiff.t :=
  MemoryDiff.mk i sampleMemory [sampleHead 1 1 3] []
    [sampleBlock 1 0 1; sampleBlock 7 9 5]
    [sampleAtt 1 5 1 1; sampleAtt 2 6 1 1; sampleAtt 3 6 4 1; sampleAtt 4 6 1 1]
    [].

(** The world of [strayDiff] when [layoutDag] is called for the first time. *)
Definition strayWorld : World := merged newWorld (strayDiff 0).

(** * Further code and notions for it *)

(** ** The tree index over a run of deliveries *)

(** The last block of [bs] delivered under the pointer [p]. *)
Definition lastDelivered (p : Z) (bs : list BlockSummary.t) : option BlockSummary.t :=
  last (filter (λ b, BlockSummary.selfPtr b = p) bs).

(** Every entry names the root sentinel or a pointer that has an entry. *)
Definition parentClosed (tr : gmap Z TreeEntry) : Prop :=
  ∀ p e, tr !! p = Some e → parent e = 0 ∨ is_Some (tr !! parent e).

(** Every block of the run, when its turn comes, is not its own parent and
    is new or does not hang under the root sentinel. *)
Fixpoint cleanDeliveries (tr : gmap Z TreeEntry) (bs : list BlockSummary.t) : Prop :=
  match bs with
  | [] => True
  | b :: bs' =>
      BlockSummary.parent b ≠ BlockSummary.selfPtr b
      ∧ (tr !! BlockSummary.selfPtr b = None ∨ BlockSummary.parent b ≠ 0)
      ∧ cleanDeliveries (mergeTree tr b) bs'
  end.

(** ** Worlds that [updateWorld] can produce *)

(** The worlds reached from the constructor's world by calls of
    [updateWorld] that return. *)
Inductive Reachable : World → Prop :=
  | reach_new : Reachable newWorld
  | reach_update (fuel : nat) (w : World) (d : MemoryDiff.t) (r : Status) (w' : World) :
      Reachable w → updateWorld fuel w d = Some (r, w') → Reachable w'.

(** A resolved block reference of an attestation is the sprite that
    [getBlock] returns for the pointer. *)
Definition resolvedTo (w : World) (ref : option nat) (ptr : Z) : Prop :=
  ∀ i, ref = Some i → getBlock w ptr = Some i.

Definition attRefsOk (w : World) : Prop :=
  ∀ pa, pa ∈ attestations w →
    resolvedTo w (PixiAttestation.source pa)
      (AttestationSummary.source (PixiAttestation.attestation pa))
    ∧ resolvedTo w (PixiAttestation.target pa)
        (AttestationSummary.target (PixiAttestation.attestation pa))
    ∧ resolvedTo w (PixiAttestation.head pa)
        (AttestationSummary.head (PixiAttestation.attestation pa)).

(** What an attestation sprite holds besides its position. *)
Definition attCore (pa : PixiAttestation.t)
  : AttestationSummary.t * option nat * option nat * option nat :=
  (PixiAttestation.attestation pa, PixiAttestation.source pa,
   PixiAttestation.target pa, PixiAttestation.head pa).

(** The attestation sprite that the attestation loop of [updateWorld w d]
    makes for [a], but for its position: the three pointers are looked up
    among the blocks known once the blocks of [d] are in. *)
Definition resolvedCore (w : World) (d : MemoryDiff.t) (a : AttestationSummary.t)
  : AttestationSummary.t * option nat * option nat * option nat :=
  (a, getBlock (beforeVotes w d) (AttestationSummary.source a),
   getBlock (beforeVotes w d) (AttestationSummary.target a),
   getBlock (beforeVotes w d) (AttestationSummary.head a)).

(** A vote list as [addVote] leaves it: at most three references, each to
    an attestation sprite of [atts], by ascending target pointer. *)
Definition votesOk (atts : list PixiAttestation.t) (v : PixiValidator.t) : Prop :=
  (length (PixiValidator.lastVotes v) ≤ 3)%nat
  ∧ Forall (λ ref, (ref < length atts)%nat) (PixiValidator.lastVotes v)
  ∧ StronglySorted
      (λ a b, PixiValidator.voteKey atts a ≤ PixiValidator.voteKey atts b)
      (PixiValidator.lastVotes v).

(** ** The message handler of [Main] *)

(** The result of [decMemoryDiff.decode] on a parsed message. *)
Inductive JsonResult (A : Type) :=
  | JsonOk (value : A)
  | JsonErr (error : string).
Arguments JsonOk {A} value.
Arguments JsonErr {A} error.

(** [onMessageEvent], from the decoder's result on: a decoded diff goes to
    [updateWorld] when the world is set up, and the status that
    [updateWorld] returns is not looked at; a decoder error and a diff
    that comes before the world are logged and dropped.  [this.world] is
    [None] until [setupWorld] has run.  The outer [None] is a call that
    does not return. *)
Definition onMessageEvent (fuel : nat) (world : option World)
    (diffRes : JsonResult MemoryDiff.t) : option (option World) :=
  match diffRes with
  | JsonOk diff =>
      match world with
      | Some w =>
          match updateWorld fuel w diff with
          | Some (_, w') => Some (Some w')
          | None => None
          end
      | None => Some None
      end
  | JsonErr _ => Some world
  end.

(** The handler over the messages of a stream, in their order. *)
Fixpoint deliver (fuel : nat) (world : option World)
    (msgs : list (JsonResult MemoryDiff.t)) : option (option World) :=
  match msgs with
  | [] => Some world
  | m :: msgs' =>
      match onMessageEvent fuel world m with
      | Some world' => deliver fuel world' msgs'
      | None => None
      end
  end.

(** The diffs of [ds] carry the indices [n], [n + 1], ... *)
Definition consecutive (n : Z) (ds : list MemoryDiff.t) : Prop :=
  ∀ i d, ds !! i = Some d → MemoryDiff.diffIndex d = n + Z.of_nat i.

(** ** Notions for the order of the layout *)



(** Every block of the run comes under a pointer that has no entry yet,
    and is not its own parent: no pointer is delivered twice and no block
    comes after one of its children. *)
Fixpoint freshDeliveries (tr : gmap Z TreeEntry) (bs : list BlockSummary.t) : Prop :=
  match bs with
  | [] => True
  | b :: bs' =>
      tr !! BlockSummary.selfPtr b = None
      ∧ BlockSummary.parent b ≠ BlockSummary.selfPtr b
      ∧ freshDeliveries (mergeTree tr b) bs'
  end.

(** From every pointer the walk towards the root leaves its loop. *)
Definition spinesEnd (tr : gmap Z TreeEntry) : Prop :=
  ∀ p, ∃ k, spineEnds tr k p = true.





(** * Properties *)

(** ** Numbers *)

Lemma toDouble_exact (z : Z) : - 2 ^ 53 ≤ z ≤ 2 ^ 53 → toDouble z = z.
Proof.
  intros Hz. unfold toDouble.
  destruct (Z.ltb_spec (Z.abs z) (2 ^ 53)) as [|Ha]; [done|].
  assert (Hc : z = 2 ^ 53 ∨ z = - 2 ^ 53) by lia.
  destruct Hc as [-> | ->]; vm_compute; reflexivity.
Qed.

Lemma numAdd_succExact (n : Z) : succExact n → numAdd n 1 = n + 1.
Proof. unfold succExact, numAdd. intros Hn. apply toDouble_exact. lia. Qed.

(** Above, the sum is rounded back. *)
Lemma numAdd_rounds_back : numAdd (2 ^ 53) 1 = 2 ^ 53.
Proof. vm_compute. reflexivity. Qed.

(** ** Termination of the layout *)

Section Termination.
Variable tr : gmap Z TreeEntry.

Lemma unordered_mono (s s' : LayoutSt) :
  dom (order s) ⊆ dom (order s') → (unordered tr s' ≤ unordered tr s)%nat.
Proof.
  intros H. unfold unordered. apply (subseteq_size (C := gset Z)).
  intros x [Hx Hn]%elem_of_difference. apply elem_of_difference.
  split; [done|]. intros Hs. apply Hn, H, Hs.
Qed.

Lemma unordered_le_size (s : LayoutSt) : (unordered tr s ≤ size (dom tr : gset Z))%nat.
Proof.
  unfold unordered. apply (subseteq_size (C := gset Z)).
  by intros x [Hx _]%elem_of_difference.
Qed.

Lemma children_loop_total (fuel : nat) :
  (∀ b st, (unordered tr st < fuel)%nat → order st !! b = None →
     ∃ st', process_block fuel tr b st = Some st'
            ∧ dom (order st) ⊆ dom (order st')) →
  ∀ (l : list Z) (s : LayoutSt), (unordered tr s < fuel)%nat →
    ∃ s', for_each
            (λ s child,
               match order s !! child with
               | Some _ => Some s
               | None => process_block fuel tr child s
               end) l s = Some s'
          ∧ dom (order s) ⊆ dom (order s').
Proof.
  intros IH l. induction l as [|c l IHl]; intros s Hs; simpl.
  - eauto.
  - destruct (order s !! c) eqn:Hc.
    + apply IHl. exact Hs.
    + destruct (IH c s Hs Hc) as (s1 & -> & Hsub).
      destruct (IHl s1) as (s2 & -> & Hsub2).
      { pose proof (unordered_mono _ _ Hsub). lia. }
      exists s2. split; [done|]. by transitivity (dom (order s1)).
Qed.

Lemma process_block_total (fuel : nat) :
  ∀ b st, (unordered tr st < fuel)%nat → order st !! b = None →
    ∃ st', process_block fuel tr b st = Some st'
           ∧ dom (order st) ⊆ dom (order st').
Proof.
  induction fuel as [|fuel IH]; intros b st Hlt Hb; [lia|].
  simpl. destruct (tr !! b) as [e|] eqn:He; [|eauto].
  match goal with |- context [for_each _ _ ?s1] => set (st1 := s1) end.
  assert (Hdom : dom (order st1) = {[b]} ∪ dom (order st)).
  { subst st1. simpl. apply dom_insert_L. }
  assert (Hdec : (unordered tr st1 < unordered tr st)%nat).
  { unfold unordered. apply (subset_size (C := gset Z)). rewrite Hdom.
    assert (Hb1 : b ∈ dom tr) by (apply elem_of_dom; eauto).
    assert (Hb2 : b ∉ dom (order st)) by (by apply not_elem_of_dom).
    split.
    - intros x [Hx Hn]%elem_of_difference. apply elem_of_difference.
      split; [done|]. intros Hs. apply Hn, elem_of_union. by right.
    - intros Hsub. specialize (Hsub b). rewrite !elem_of_difference in Hsub.
      destruct Hsub as [_ Hn]; [done|]. apply Hn, elem_of_union. left.
      by apply elem_of_singleton. }
  destruct (children_loop_total fuel IH (children e) st1) as (s' & Hs' & Hsub);
    [lia|].
  exists s'. split; [exact Hs'|]. rewrite Hdom in Hsub.
  intros x Hx. apply Hsub, elem_of_union. by right.
Qed.

Lemma process_block_spine (fuel : nat) (b : Z) (st : LayoutSt) :
  (size (dom tr : gset Z) + 1 < fuel)%nat →
  ∃ st', process_block fuel tr b st = Some st'.
Proof.
  destruct fuel as [|fuel]; [lia|]. intros Hf.
  simpl. destruct (tr !! b) as [e|] eqn:He; [|eauto].
  match goal with |- context [for_each _ _ ?s1] => set (st1 := s1) end.
  destruct (children_loop_total fuel (process_block_total fuel) (children e) st1)
    as (s' & Hs' & _).
  { pose proof (unordered_le_size st1). lia. }
  eauto.
Qed.

Lemma walk_total (pfuel : nat) :
  (size (dom tr : gset Z) + 1 < pfuel)%nat →
  ∀ (k : nat) (block : Z) (st : LayoutSt) (fuel : nat),
    spineEnds tr k block = true → (k < fuel)%nat →
    ∃ st', walk fuel pfuel tr block st = Some st'.
Proof.
  intros Hp k. induction k as [|k IH]; intros block st fuel Hk Hf;
    (destruct fuel as [|fuel]; [lia|]); simpl in *;
    destruct (tr !! block) as [e|] eqn:He; eauto;
    destruct (process_block_spine pfuel block st Hp) as (st1 & ->);
    destruct (parent e =? 0); eauto; try done.
  apply IH; [done | lia].
Qed.

End Termination.

Lemma layoutDag_total (k : nat) (w : World) (fuel : nat) :
  headSpineEnds k w = true → (enoughFuel k w ≤ fuel)%nat →
  ∃ w', layoutDag fuel w = Some w'.
Proof.
  unfold headSpineEnds, enoughFuel, layoutDag, dagOrder. intros Hk Hf.
  destruct (last (head w)) as [hd|]; [|eauto].
  destruct (walk_total (tree w) fuel ltac:(lia) k (HeadSummary.headBlock hd)
              (mkLayoutSt {[HeadSummary.headBlock hd := 0]} ∅) fuel Hk ltac:(lia))
    as (st & ->).
  simpl. eauto.
Qed.

(** The head of a block that is its own parent is walked for ever. *)
Lemma walk_self_parent_diverges (tr : gmap Z TreeEntry) (b : Z) (e : TreeEntry) :
  tr !! b = Some e → parent e = b → b ≠ 0 →
  ∀ fuel pfuel st, walk fuel pfuel tr b st = None.
Proof.
  intros He Hp Hb fuel pfuel. induction fuel as [|fuel IH]; intros st; simpl; [done|].
  rewrite He. destruct (process_block pfuel tr b st); [|done].
  rewrite Hp. destruct (Z.eqb_spec b 0); [done|]. apply IH.
Qed.

(** The walk of [layoutDag] does not end on a head that is its own parent:
    [updateWorld] does not return, whatever the fuel. *)
Lemma self_parent_head_never_returns (fuel : nat) :
  updateWorld fuel newWorld (selfParentDiff 0) = None.
Proof.
  unfold updateWorld. simpl. unfold layoutDag, dagOrder.
  assert (Hh : last (head (merged newWorld (selfParentDiff 0)))
               = Some (sampleHead 5 1 3)) by (vm_compute; reflexivity).
  rewrite Hh. simpl.
  by rewrite (walk_self_parent_diverges _ 5 (mkTreeEntry 5 1 [5; 5])).
Qed.

(** ** What the layout leaves alone *)

Lemma layoutDag_frame (fuel : nat) (w w' : World) :
  layoutDag fuel w = Some w' →
  valCount w' = valCount w ∧ validators w' = validators w ∧ head w' = head w
  ∧ finalized w' = finalized w ∧ tree w' = tree w
  ∧ nextDiffIndex w' = nextDiffIndex w
  ∧ layoutRuns w' = S (layoutRuns w) ∧ relationDraws w' = relationDraws w.
Proof.
  unfold layoutDag. intros H.
  destruct (last (head w)); [destruct (dagOrder fuel w)|]; simplify_eq; done.
Qed.

(** ** What each stage of the merge leaves alone *)

Lemma fold_addBlock_frame (bs : list BlockSummary.t) (w : World) :
  let w' := fold_left addBlock bs w in
  valCount w' = valCount w ∧ validators w' = validators w ∧ head w' = head w
  ∧ finalized w' = finalized w ∧ attestations w' = attestations w
  ∧ nextDiffIndex w' = nextDiffIndex w
  ∧ layoutRuns w' = layoutRuns w ∧ relationDraws w' = relationDraws w
  ∧ blocks w' = blocks w ++ (PixiBlock.new <$> bs)
  ∧ tree w' = fold_left mergeTree bs (tree w).
Proof.
  revert w. induction bs as [|b bs IH]; intros w; simpl.
  - by rewrite app_nil_r.
  - destruct (IH (addBlock w b)) as (-> & -> & -> & -> & -> & -> & -> & -> & -> & ->).
    simpl. by rewrite <- app_assoc.
Qed.

Lemma fold_addAttestation_frame (l : list AttestationSummary.t) (w : World) :
  let w' := fold_left addAttestation l w in
  valCount w' = valCount w ∧ validators w' = validators w ∧ head w' = head w
  ∧ finalized w' = finalized w ∧ blocks w' = blocks w ∧ tree w' = tree w
  ∧ nextDiffIndex w' = nextDiffIndex w
  ∧ layoutRuns w' = layoutRuns w ∧ relationDraws w' = relationDraws w
  ∧ PixiAttestation.attestation <$> attestations w'
    = (PixiAttestation.attestation <$> attestations w) ++ l.
Proof.
  revert w. induction l as [|a l IH]; intros w; simpl.
  - by rewrite app_nil_r.
  - destruct (IH (addAttestation w a)) as (-> & -> & -> & -> & -> & -> & -> & -> & -> & ->).
    simpl. by rewrite fmap_app, <- app_assoc.
Qed.

Lemma addVote_index (atts : list PixiAttestation.t) (v : PixiValidator.t) (a : nat) :
  PixiValidator.index (PixiValidator.addVote atts v a) = PixiValidator.index v.
Proof. done. Qed.

Lemma applyVote_frame (w : World) (vote : VoteSummary) :
  let w' := applyVote w vote in
  valCount w' = valCount w ∧ head w' = head w ∧ finalized w' = finalized w
  ∧ blocks w' = blocks w ∧ attestations w' = attestations w ∧ tree w' = tree w
  ∧ nextDiffIndex w' = nextDiffIndex w
  ∧ layoutRuns w' = layoutRuns w ∧ relationDraws w' = relationDraws w
  ∧ PixiValidator.index <$> validators w' = PixiValidator.index <$> validators w.
Proof.
  unfold applyVote.
  destruct (getValidator w _) as [vref|]; [|done].
  destruct (getAttestation w _) as [a|]; [|done].
  destruct (validators w !! vref) as [val|] eqn:Hval; [|done].
  simpl. repeat split.
  rewrite list_fmap_insert, addVote_index. by apply list_insert_id, list_lookup_fmap_Some_2.
Qed.

Lemma fold_applyVote_frame (votes : list VoteSummary) (w : World) :
  let w' := fold_left applyVote votes w in
  valCount w' = valCount w ∧ head w' = head w ∧ finalized w' = finalized w
  ∧ blocks w' = blocks w ∧ attestations w' = attestations w ∧ tree w' = tree w
  ∧ nextDiffIndex w' = nextDiffIndex w
  ∧ layoutRuns w' = layoutRuns w ∧ relationDraws w' = relationDraws w
  ∧ PixiValidator.index <$> validators w' = PixiValidator.index <$> validators w.
Proof.
  revert w. induction votes as [|v votes IH]; intros w; simpl; [done|].
  destruct (IH (applyVote w v)) as (-> & -> & -> & -> & -> & -> & -> & -> & -> & ->).
  apply applyVote_frame.
Qed.

Lemma maxValCount_spec (start : Z) (heads : list HeadSummary.t) :
  let m := maxValCount start heads in
  start ≤ m
  ∧ (∀ h, h ∈ heads → total (HeadSummary.validatorCounts h) ≤ m)
  ∧ (m = start ∨ ∃ h, h ∈ heads ∧ m = total (HeadSummary.validatorCounts h)).
Proof.
  unfold maxValCount. revert start.
  induction heads as [|h heads IH]; intros start; simpl.
  - split; [lia|]. split; [|by left]. intros h Hh. by apply elem_of_nil in Hh.
  - match goal with |- context [fold_left _ heads ?s] => set (s1 := s) end.
    assert (Hs1 : start ≤ s1 ∧ total (HeadSummary.validatorCounts h) ≤ s1
                  ∧ (s1 = start ∨ s1 = total (HeadSummary.validatorCounts h))).
    { subst s1. destruct (Z.gtb_spec (total (HeadSummary.validatorCounts h)) start); lia. }
    destruct (IH s1) as (Hle & Hall & Hmax). split; [lia|]. split.
    + intros h' [->|Hh']%elem_of_cons; [lia | by apply Hall].
    + destruct Hmax as [->|(h' & Hh' & ->)].
      * destruct Hs1 as (_ & _ & [->| ->]); [by left|].
        right. exists h. split; [apply elem_of_cons; by left | done].
      * right. exists h'. split; [apply elem_of_cons; by right | done].
Qed.

Lemma growValidators_frame (w : World) (d : MemoryDiff.t) :
  let w' := growValidators w d in
  valCount w' = maxValCount (valCount w) (MemoryDiff.head d)
  ∧ head w' = head w ++ MemoryDiff.head d
  ∧ finalized w' = finalized w ∧ blocks w' = blocks w
  ∧ attestations w' = attestations w ∧ tree w' = tree w
  ∧ nextDiffIndex w' = nextDiffIndex w
  ∧ layoutRuns w' = layoutRuns w ∧ relationDraws w' = relationDraws w
  ∧ validators w'
    = validators w ++ (PixiValidator.new <$> seqZ (valCount w) (valCount w' - valCount w)).
Proof.
  unfold growValidators. simpl. case_decide as Hm; simpl.
  - done.
  - rewrite Hm, Z.sub_diag. simpl.
    by rewrite app_nil_r.
Qed.

Lemma merged_frame (w : World) (d : MemoryDiff.t) :
  let w' := merged w d in
  valCount w' = maxValCount (valCount w) (MemoryDiff.head d)
  ∧ head w' = head w ++ MemoryDiff.head d
  ∧ finalized w' = finalized w ++ MemoryDiff.finalized d
  ∧ blocks w' = blocks w ++ (PixiBlock.new <$> MemoryDiff.blocks d)
  ∧ PixiAttestation.attestation <$> attestations w'
    = (PixiAttestation.attestation <$> attestations w) ++ MemoryDiff.attestations d
  ∧ tree w' = fold_left mergeTree (MemoryDiff.blocks d) (tree w)
  ∧ nextDiffIndex w' = nextDiffIndex w
  ∧ layoutRuns w' = layoutRuns w ∧ relationDraws w' = relationDraws w
  ∧ PixiValidator.index <$> validators w'
    = (PixiValidator.index <$> validators w)
      ++ seqZ (valCount w) (valCount w' - valCount w).
Proof.
  unfold merged, beforeVotes.
  match goal with |- context [fold_left applyVote ?vs ?w0] =>
    destruct (fold_applyVote_frame vs w0)
      as (-> & -> & -> & -> & -> & -> & -> & -> & -> & ->) end.
  match goal with |- context [fold_left addAttestation ?l ?w0] =>
    destruct (fold_addAttestation_frame l w0)
      as (-> & -> & -> & -> & -> & -> & -> & -> & -> & ->) end.
  match goal with |- context [fold_left addBlock ?l ?w0] =>
    destruct (fold_addBlock_frame l w0)
      as (-> & -> & -> & -> & -> & -> & -> & -> & -> & ->) end.
  simpl.
  destruct (growValidators_frame w d)
    as (HvC & -> & -> & -> & -> & -> & -> & -> & -> & ->).
  rewrite HvC. repeat split.
  rewrite fmap_app, <- list_fmap_compose.
  f_equal. apply list_fmap_id.
Qed.

Lemma rejects_Some (w : World) (d : MemoryDiff.t) (r : Status) :
  rejects w d = Some r →
  ∃ n, nextDiffIndex w = Some n
       ∧ (r = too_new ∧ n < MemoryDiff.diffIndex d
          ∨ r = too_old ∧ n > MemoryDiff.diffIndex d).
Proof.
  unfold rejects. destruct (nextDiffIndex w) as [n|]; [|done].
  destruct (Z.ltb_spec n (MemoryDiff.diffIndex d)).
  - intros [= <-]. eauto.
  - destruct (Z.gtb_spec n (MemoryDiff.diffIndex d)); [|done].
    intros [= <-]. exists n. split; [done|]. right. split; [done | lia].
Qed.

(** An accepted diff: what [updateWorld] returns and leaves behind. *)
Lemma updateWorld_accepts (fuel : nat) (w : World) (d : MemoryDiff.t)
    (r : Status) (w' : World) :
  rejects w d = None →
  updateWorld fuel w d = Some (r, w') →
  r = ok
  ∧ nextDiffIndex w' = Some (numAdd (MemoryDiff.diffIndex d) 1)
  ∧ valCount w' = valCount (merged w d)
  ∧ validators w' = validators (merged w d)
  ∧ head w' = head (merged w d)
  ∧ finalized w' = finalized (merged w d)
  ∧ tree w' = tree (merged w d)
  ∧ layoutRuns w' = S (layoutRuns w)
  ∧ relationDraws w' = S (relationDraws w).
Proof.
  unfold updateWorld. intros -> H.
  destruct (layoutDag fuel (merged w d)) as [lw|] eqn:Hl; [|done].
  injection H as <- <-.
  destruct (layoutDag_frame _ _ _ Hl) as (H1 & H2 & H3 & H4 & H5 & _ & HL & HR).
  destruct (merged_frame w d) as (_ & _ & _ & _ & _ & _ & _ & HL' & HR' & _).
  simpl in *. rewrite H1, H2, H3, H4, H5, HL, HR, HL', HR'. done.
Qed.

Lemma updateWorld_returns (k fuel : nat) (w : World) (d : MemoryDiff.t) :
  rejects w d = None →
  headSpineEnds k (merged w d) = true →
  (enoughFuel k (merged w d) ≤ fuel)%nat →
  ∃ w', updateWorld fuel w d = Some (ok, w').
Proof.
  unfold updateWorld. intros -> Hk Hf.
  destruct (layoutDag_total k _ fuel Hk Hf) as (lw & ->). eauto.
Qed.

(** ** The ordering rule *)

(** The walk of [layoutDag] does not end on a head that is its own
    parent. *)
Lemma self_parent_head_diverges (w : World) (hd : HeadSummary.t) (e : TreeEntry) :
  last (head w) = Some hd →
  tree w !! HeadSummary.headBlock hd = Some e →
  parent e = HeadSummary.headBlock hd → HeadSummary.headBlock hd ≠ 0 →
  ∀ fuel, layoutDag fuel w = None.
Proof.
  intros Hhd He Hp H0 fuel. unfold layoutDag, dagOrder. rewrite Hhd.
  by rewrite (walk_self_parent_diverges _ _ e He Hp H0).
Qed.

Lemma rejects_equal (w : World) (d : MemoryDiff.t) :
  nextDiffIndex w = Some (MemoryDiff.diffIndex d) → rejects w d = None.
Proof.
  intros Hn. unfold rejects. rewrite Hn, Z.ltb_irrefl.
  by destruct (Z.gtb_spec (MemoryDiff.diffIndex d) (MemoryDiff.diffIndex d)); [lia|].
Qed.

Lemma rejects_repeated (w : World) (d : MemoryDiff.t) :
  succExact (MemoryDiff.diffIndex d) →
  nextDiffIndex w = Some (numAdd (MemoryDiff.diffIndex d) 1) →
  rejects w d = Some too_old.
Proof.
  intros Hs Hn. unfold rejects. rewrite Hn, (numAdd_succExact _ Hs).
  destruct (Z.ltb_spec (MemoryDiff.diffIndex d + 1) (MemoryDiff.diffIndex d)); [lia|].
  by destruct (Z.gtb_spec (MemoryDiff.diffIndex d + 1) (MemoryDiff.diffIndex d)); [|lia].
Qed.

(** [edgeWorld] expects [2^53].  The diff of index [2^53] is applied, the
    expected index stays [2^53] (the sum with [1] is rounded back), and
    the same diff is applied once more: three more head summaries. *)
Example edge_diff_is_applied_twice :
  nextDiffIndex edgeWorld = Some (2 ^ 53)
  ∧ ∃ w', updateWorld 5 edgeWorld (growingDiff (2 ^ 53)) = Some (ok, w')
          ∧ nextDiffIndex w' = Some (2 ^ 53)
          ∧ ∃ w'', updateWorld 5 w' (growingDiff (2 ^ 53)) = Some (ok, w'')
                   ∧ length (head w'') = S (S (S (length (head w')))).
Proof.
  split; [vm_compute; reflexivity|].
  eexists. split; [vm_compute; reflexivity|].
  split; [vm_compute; reflexivity|].
  eexists. split; vm_compute; reflexivity.
Qed.

(** [genesisWorld] expects [1].  On the diff of index [1] whose head block
    is its own parent the call does not return. *)
Example self_parent_after_genesis_never_returns (fuel : nat) :
  updateWorld fuel genesisWorld (selfParentDiff 1) = None.
Proof.
  unfold updateWorld.
  assert (Hr : rejects genesisWorld (selfParentDiff 1) = None)
    by (vm_compute; reflexivity).
  rewrite Hr.
  rewrite (self_parent_head_diverges _ (sampleHead 5 1 3) (mkTreeEntry 5 1 [5; 5]));
    [done | vm_compute; reflexivity | vm_compute; reflexivity | done | done].
Qed.

(** C1 as stated fails in each part of its equal case.  A diff with the
    expected index is not always applied: on [selfParentDiff 1] in
    [genesisWorld] the call does not return.  The expected next index
    afterwards is not always [diff.diffIndex + 1], and the same diff is
    not always ['too_old'] the second time: in [edgeWorld] the diff of
    index [2^53] leaves [2^53] expected and is applied again. *)
Lemma equal_index_is_not_always_applied_once :
  ¬ (∀ w d, nextDiffIndex w = Some (MemoryDiff.diffIndex d) →
       ∃ fuel w', updateWorld fuel w d = Some (ok, w'))
  ∧ ¬ (∀ fuel w d w', nextDiffIndex w = Some (MemoryDiff.diffIndex d) →
         updateWorld fuel w d = Some (ok, w') →
         nextDiffIndex w' = Some (MemoryDiff.diffIndex d + 1))
  ∧ ¬ (∀ fuel w d w', nextDiffIndex w = Some (MemoryDiff.diffIndex d) →
         updateWorld fuel w d = Some (ok, w') →
         ∀ fuel', updateWorld fuel' w' d = Some (too_old, w')).
Proof.
  destruct edge_diff_is_applied_twice as (Hn & w' & Hu & Hn' & w'' & Hu' & _).
  split; [|split].
  - intros H.
    destruct (H genesisWorld (selfParentDiff 1)) as (fuel & w1 & Hu1);
      [vm_compute; reflexivity|].
    by rewrite self_parent_after_genesis_never_returns in Hu1.
  - intros H. specialize (H 5%nat edgeWorld (growingDiff (2 ^ 53)) w' Hn Hu).
    rewrite Hn' in H. vm_compute in H. discriminate H.
  - intros H. specialize (H 5%nat edgeWorld (growingDiff (2 ^ 53)) w' Hn Hu 5%nat).
    rewrite Hu' in H. discriminate H.
Qed.

(** C1, amended: with an expected next index [n], [updateWorld] returns
    ['too_new'] when [n < diff.diffIndex] and ['too_old'] when
    [n > diff.diffIndex], in both cases on the untouched world.  When
    they are equal and the parent chain of the newest head block ends in
    the merged tree (within [k] steps it meets a pointer without entry
    or an entry with parent [0]), the call returns ['ok'] and has
    applied the diff: the logs and the tree are those of the merged
    world, one more layout and one more redraw have run, and the
    expected next index is the sum of doubles [diff.diffIndex + 1].  For
    [-2^53 ≤ diff.diffIndex < 2^53] that sum is [diff.diffIndex + 1]
    itself and the same diff is ['too_old'] from then on.  Whatever the
    parent chain, a call that returns has done all this. *)
Theorem updateWorld_ordering (w : World) (d : MemoryDiff.t) (n : Z) :
  nextDiffIndex w = Some n →
  (n < MemoryDiff.diffIndex d → ∀ fuel, updateWorld fuel w d = Some (too_new, w))
  ∧ (n > MemoryDiff.diffIndex d → ∀ fuel, updateWorld fuel w d = Some (too_old, w))
  ∧ (n = MemoryDiff.diffIndex d →
       (∀ k fuel, headSpineEnds k (merged w d) = true →
          (enoughFuel k (merged w d) ≤ fuel)%nat →
          ∃ w', updateWorld fuel w d = Some (ok, w')
            ∧ head w' = head w ++ MemoryDiff.head d
            ∧ finalized w' = finalized w ++ MemoryDiff.finalized d
            ∧ tree w' = fold_left mergeTree (MemoryDiff.blocks d) (tree w)
            ∧ layoutRuns w' = S (layoutRuns w)
            ∧ relationDraws w' = S (relationDraws w)
            ∧ nextDiffIndex w' = Some (numAdd (MemoryDiff.diffIndex d) 1)
            ∧ (succExact (MemoryDiff.diffIndex d) →
                 nextDiffIndex w' = Some (MemoryDiff.diffIndex d + 1)
                 ∧ ∀ fuel', updateWorld fuel' w' d = Some (too_old, w')))
       ∧ (∀ fuel r w', updateWorld fuel w d = Some (r, w') →
            r = ok
            ∧ head w' = head w ++ MemoryDiff.head d
            ∧ finalized w' = finalized w ++ MemoryDiff.finalized d
            ∧ tree w' = fold_left mergeTree (MemoryDiff.blocks d) (tree w)
            ∧ layoutRuns w' = S (layoutRuns w)
            ∧ relationDraws w' = S (relationDraws w)
            ∧ nextDiffIndex w' = Some (numAdd (MemoryDiff.diffIndex d) 1)
            ∧ (succExact (MemoryDiff.diffIndex d) →
                 nextDiffIndex w' = Some (MemoryDiff.diffIndex d + 1)
                 ∧ ∀ fuel', updateWorld fuel' w' d = Some (too_old, w')))).
Proof.
  intros Hn. split; [|split].
  - intros Hlt fuel. unfold updateWorld, rejects. rewrite Hn.
    by destruct (Z.ltb_spec n (MemoryDiff.diffIndex d)); [|lia].
  - intros Hgt fuel. unfold updateWorld, rejects. rewrite Hn.
    destruct (Z.ltb_spec n (MemoryDiff.diffIndex d)); [lia|].
    by destruct (Z.gtb_spec n (MemoryDiff.diffIndex d)); [|lia].
  - intros ->.
    pose proof (rejects_equal w d Hn) as Hacc.
    assert (Hres : ∀ fuel r w', updateWorld fuel w d = Some (r, w') →
            r = ok
            ∧ head w' = head w ++ MemoryDiff.head d
            ∧ finalized w' = finalized w ++ MemoryDiff.finalized d
            ∧ tree w' = fold_left mergeTree (MemoryDiff.blocks d) (tree w)
            ∧ layoutRuns w' = S (layoutRuns w)
            ∧ relationDraws w' = S (relationDraws w)
            ∧ nextDiffIndex w' = Some (numAdd (MemoryDiff.diffIndex d) 1)
            ∧ (succExact (MemoryDiff.diffIndex d) →
                 nextDiffIndex w' = Some (MemoryDiff.diffIndex d + 1)
                 ∧ ∀ fuel', updateWorld fuel' w' d = Some (too_old, w'))).
    { intros fuel r w' Hu.
      destruct (updateWorld_accepts _ _ _ _ _ Hacc Hu)
        as (-> & Hnext & _ & _ & Hh & Hf & Ht & HL & HR).
      destruct (merged_frame w d) as (_ & Hh' & Hf' & _ & _ & Ht' & _).
      simpl in *. rewrite Hh, Hf, Ht, Hh', Hf', Ht'. repeat split; try done.
      - by rewrite Hnext, numAdd_succExact.
      - intros fuel'. unfold updateWorld. by rewrite (rejects_repeated w' d). }
    split; [|exact Hres].
    intros k fuel Hk Hf.
    destruct (updateWorld_returns k fuel w d Hacc Hk Hf) as (w' & Hu).
    exists w'. split; [done|]. by apply (Hres fuel ok w').
Qed.

Lemma updateWorld_ordering_witness :
  nextDiffIndex genesisWorld = Some 1
  ∧ updateWorld 5 genesisWorld (genesisDiff 4) = Some (too_new, genesisWorld)
  ∧ updateWorld 5 genesisWorld (genesisDiff 0) = Some (too_old, genesisWorld)
  ∧ ∃ w', updateWorld 5 genesisWorld (genesisDiff 1) = Some (ok, w')
          ∧ nextDiffIndex w' = Some 2
          ∧ updateWorld 5 w' (genesisDiff 1) = Some (too_old, w').
Proof.
  split; [reflexivity|]. split; [|split].
  - apply (updateWorld_ordering genesisWorld (genesisDiff 4) 1 eq_refl).
    reflexivity.
  - apply (updateWorld_ordering genesisWorld (genesisDiff 0) 1 eq_refl).
    reflexivity.
  - destruct (proj1 (proj2 (proj2 (updateWorld_ordering genesisWorld (genesisDiff 1) 1
                                     eq_refl)) eq_refl) 1%nat 5%nat)
      as (w' & Hu & _ & _ & _ & _ & _ & _ & Hs).
    + vm_compute. reflexivity.
    + vm_compute. lia.
    + destruct Hs as [Hn Hold]; [vm_compute; split; [discriminate | reflexivity]|].
      exists w'. split; [exact Hu|]. split; [exact Hn | apply Hold].
Defined.

(** C2: a call that returns ['too_old'] or ['too_new'] leaves the world as
    it was: the head and finalized logs, the blocks, the attestations, the
    validator count, the tree, every validator with its vote list, and no
    layout run and no redraw is added. *)
Theorem rejected_diff_changes_nothing (fuel : nat) (w : World) (d : MemoryDiff.t)
    (r : Status) (w' : World) :
  updateWorld fuel w d = Some (r, w') →
  r = too_old ∨ r = too_new →
  w' = w
  ∧ head w' = head w ∧ finalized w' = finalized w
  ∧ blocks w' = blocks w ∧ attestations w' = attestations w
  ∧ valCount w' = valCount w ∧ tree w' = tree w
  ∧ validators w' = validators w
  ∧ layoutRuns w' = layoutRuns w ∧ relationDraws w' = relationDraws w.
Proof.
  unfold updateWorld. intros Hu Hr.
  destruct (rejects w d) as [r0|].
  - by injection Hu as <- <-.
  - destruct (layoutDag fuel (merged w d)); [|done].
    injection Hu as <- <-. by destruct Hr.
Qed.

Lemma rejected_diff_changes_nothing_witness :
  worldAfter 5 genesisWorld (genesisDiff 4) = genesisWorld.
Proof.
  apply (rejected_diff_changes_nothing 5 genesisWorld (genesisDiff 4) too_new
           (worldAfter 5 genesisWorld (genesisDiff 4))).
  - reflexivity.
  - right. reflexivity.
Defined.

(** The first diff of index [2^53] leaves [2^53] as expected index. *)
Example first_edge_diff_keeps_index :
  ∃ w', updateWorld 5 newWorld (growingDiff (2 ^ 53)) = Some (ok, w')
        ∧ nextDiffIndex w' = Some (2 ^ 53).
Proof. eexists. split; vm_compute; reflexivity. Qed.

(** C10 as stated fails in both parts.  Not every diff that decodes is
    applied by the first call: on [selfParentDiff 0], whose head block is
    its own parent, the call does not return.  And the expected next
    index afterwards is not always [diff.diffIndex + 1]: after the first
    diff of index [2^53] it is [2^53]. *)
Lemma first_diff_is_not_always_applied :
  ¬ (∀ d, ∃ fuel w', updateWorld fuel newWorld d = Some (ok, w'))
  ∧ ¬ (∀ fuel d w', updateWorld fuel newWorld d = Some (ok, w') →
         nextDiffIndex w' = Some (MemoryDiff.diffIndex d + 1)).
Proof.
  split.
  - intros H. destruct (H (selfParentDiff 0)) as (fuel & w' & Hu).
    by rewrite self_parent_head_never_returns in Hu.
  - intros H. destruct first_edge_diff_keeps_index as (w' & Hu & Hn).
    specialize (H 5%nat (growingDiff (2 ^ 53)) w' Hu).
    rewrite Hn in H. vm_compute in H. discriminate H.
Qed.

(** C10, amended: while no next index is expected, [updateWorld] makes
    no ordering check.  Whatever [diff.diffIndex] is, when the parent
    chain of the newest head block ends in the merged tree (within [k]
    steps it meets a pointer without entry or an entry with parent [0])
    the call returns ['ok'] and has applied the diff; the expected next
    index afterwards is the sum of doubles [diff.diffIndex + 1], which
    is [diff.diffIndex + 1] itself for [-2^53 ≤ diff.diffIndex < 2^53].
    Whatever the parent chain, a call that returns has done all this. *)
Theorem first_diff_is_applied (w : World) (d : MemoryDiff.t) :
  nextDiffIndex w = None →
  (∀ k fuel, headSpineEnds k (merged w d) = true →
     (enoughFuel k (merged w d) ≤ fuel)%nat →
     ∃ w', updateWorld fuel w d = Some (ok, w')
       ∧ head w' = head w ++ MemoryDiff.head d
       ∧ finalized w' = finalized w ++ MemoryDiff.finalized d
       ∧ tree w' = fold_left mergeTree (MemoryDiff.blocks d) (tree w)
       ∧ nextDiffIndex w' = Some (numAdd (MemoryDiff.diffIndex d) 1)
       ∧ (succExact (MemoryDiff.diffIndex d) →
            nextDiffIndex w' = Some (MemoryDiff.diffIndex d + 1)))
  ∧ (∀ fuel r w', updateWorld fuel w d = Some (r, w') →
       r = ok
       ∧ head w' = head w ++ MemoryDiff.head d
       ∧ finalized w' = finalized w ++ MemoryDiff.finalized d
       ∧ tree w' = fold_left mergeTree (MemoryDiff.blocks d) (tree w)
       ∧ nextDiffIndex w' = Some (numAdd (MemoryDiff.diffIndex d) 1)
       ∧ (succExact (MemoryDiff.diffIndex d) →
            nextDiffIndex w' = Some (MemoryDiff.diffIndex d + 1))).
Proof.
  intros Hn.
  assert (Hacc : rejects w d = None) by (unfold rejects; by rewrite Hn).
  assert (Hres : ∀ fuel r w', updateWorld fuel w d = Some (r, w') →
     r = ok
     ∧ head w' = head w ++ MemoryDiff.head d
     ∧ finalized w' = finalized w ++ MemoryDiff.finalized d
     ∧ tree w' = fold_left mergeTree (MemoryDiff.blocks d) (tree w)
     ∧ nextDiffIndex w' = Some (numAdd (MemoryDiff.diffIndex d) 1)
     ∧ (succExact (MemoryDiff.diffIndex d) →
          nextDiffIndex w' = Some (MemoryDiff.diffIndex d + 1))).
  { intros fuel r w' Hu.
    destruct (updateWorld_accepts _ _ _ _ _ Hacc Hu)
      as (-> & Hnext & _ & _ & Hh & Hf & Ht & _).
    destruct (merged_frame w d) as (_ & Hh' & Hf' & _ & _ & Ht' & _).
    simpl in *. rewrite Hh, Hf, Ht, Hh', Hf', Ht'. repeat split; try done.
    intros Hs. by rewrite Hnext, numAdd_succExact. }
  split; [|exact Hres].
  intros k fuel Hk Hf.
  destruct (updateWorld_returns k fuel w d Hacc Hk Hf) as (w' & Hu).
  exists w'. split; [done|]. by apply (Hres fuel ok w').
Qed.

Lemma first_diff_is_applied_witness :
  ∃ w', updateWorld 5 newWorld (genesisDiff 42) = Some (ok, w')
        ∧ nextDiffIndex w' = Some 43.
Proof.
  destruct (proj1 (first_diff_is_applied newWorld (genesisDiff 42) eq_refl)
              1%nat 5%nat) as (w' & Hu & _ & _ & _ & _ & Hs).
  - vm_compute. reflexivity.
  - vm_compute. lia.
  - exists w'. split; [exact Hu|]. apply Hs. vm_compute. split; [discriminate | reflexivity].
Defined.

(** ** The validator set *)



(** ** Votes *)

(** [addVote] never leaves more than three votes. *)
Lemma addVote_at_most_three (atts : list PixiAttestation.t) (v : PixiValidator.t)
    (att : nat) :
  (length (PixiValidator.lastVotes (PixiValidator.addVote atts v att)) ≤ 3)%nat.
Proof.
  unfold PixiValidator.addVote. simpl.
  destruct (Nat.ltb_spec 3 (length (sort_by (PixiValidator.voteKey atts)
                                      (PixiValidator.lastVotes v ++ [att])))).
  - rewrite length_take. lia.
  - done.
Qed.

(** The vote list after [addVote] runs by ascending target pointer. *)
Lemma insert_sorted_elem_of {A : Type} (key : A → Z) (x : A) (l : list A) (y : A) :
  y ∈ insert_sorted key x l ↔ y = x ∨ y ∈ l.
Proof.
  induction l as [|z l IH]; simpl.
  - rewrite list_elem_of_singleton, elem_of_nil. tauto.
  - destruct (key x <? key z).
    + by rewrite elem_of_cons.
    + rewrite !elem_of_cons, IH. tauto.
Qed.

Lemma insert_sorted_sorted {A : Type} (key : A → Z) (x : A) (l : list A) :
  StronglySorted (λ a b, key a ≤ key b) l →
  StronglySorted (λ a b, key a ≤ key b) (insert_sorted key x l).
Proof.
  induction l as [|z l IH]; simpl; intros Hl.
  - apply StronglySorted_cons. split; [constructor | constructor].
  - apply StronglySorted_cons in Hl as [Hz Hl].
    destruct (Z.ltb_spec (key x) (key z)).
    + apply StronglySorted_cons. split.
      * constructor; [lia|]. eapply Forall_impl; [exact Hz|]. simpl. intros ? ?. lia.
      * apply StronglySorted_cons. by split.
    + apply StronglySorted_cons. split; [|by apply IH].
      apply Forall_forall. intros y [->|Hy]%insert_sorted_elem_of; [lia|].
      by apply (proj1 (Forall_forall _ _) Hz).
Qed.

Lemma sort_by_sorted {A : Type} (key : A → Z) (l : list A) :
  StronglySorted (λ a b, key a ≤ key b) (sort_by key l).
Proof.
  unfold sort_by.
  assert (H : ∀ acc, StronglySorted (λ a b, key a ≤ key b) acc →
            StronglySorted (λ a b, key a ≤ key b)
              (fold_left (λ acc x, insert_sorted key x acc) l acc)).
  { induction l as [|x l IH]; intros acc Hacc; simpl; [done|].
    by apply IH, insert_sorted_sorted. }
  apply H. constructor.
Qed.

Lemma addVote_ascending (atts : list PixiAttestation.t) (v : PixiValidator.t)
    (att : nat) :
  StronglySorted
    (λ a b, PixiValidator.voteKey atts a ≤ PixiValidator.voteKey atts b)
    (PixiValidator.lastVotes (PixiValidator.addVote atts v att)).
Proof.
  unfold PixiValidator.addVote. simpl.
  pose proof (sort_by_sorted (PixiValidator.voteKey atts)
                (PixiValidator.lastVotes v ++ [att])) as Hs.
  destruct (3 <? _)%nat; [|done].
  rewrite <- (take_drop 3) in Hs. by apply StronglySorted_app_1_l in Hs.
Qed.

(** A vote that is not older than the three retained ones is not recorded:
    the list stays as it is. *)
Lemma addVote_newer_is_dropped (atts : list PixiAttestation.t) (v : PixiValidator.t)
    (a b c att : nat) :
  PixiValidator.lastVotes v = [a; b; c] →
  PixiValidator.voteKey atts a ≤ PixiValidator.voteKey atts b →
  PixiValidator.voteKey atts b ≤ PixiValidator.voteKey atts c →
  PixiValidator.voteKey atts c ≤ PixiValidator.voteKey atts att →
  PixiValidator.lastVotes (PixiValidator.addVote atts v att) = [a; b; c].
Proof.
  intros Hv Hab Hbc Hc. unfold PixiValidator.addVote. rewrite Hv. simpl.
  unfold sort_by. simpl.
  repeat match goal with
         | |- context [?x <? ?y] => destruct (Z.ltb_spec x y); try lia; simpl
         end; done.
Qed.

(** C5 fails on the code: validator [0] votes for attestations with
    targets 1, 2, 3 and then 4.  Its list is bounded by three, but the
    vote dropped is the newest one (target 4), and the list runs by
    ascending target pointer: the comparator is [a - b] and [slice(0, 3)]
    keeps the front. *)
Theorem newest_vote_is_discarded :
  let w' := worldAfter 5 genesisWorld (fourVotesDiff 1) in
  updateWorld 5 genesisWorld (fourVotesDiff 1) = Some (ok, w')
  ∧ PixiValidator.lastVotes <$> validators w' !! 0%nat = Some [0; 1; 2]%nat
  ∧ PixiValidator.voteKey (attestations w') <$> [0; 1; 2; 3]%nat = [1; 2; 3; 4]
  ∧ (∀ v, v ∈ validators w' → (length (PixiValidator.lastVotes v) ≤ 3)%nat).
Proof.
  split; [vm_compute; reflexivity|].
  split; [vm_compute; reflexivity|].
  split; [vm_compute; reflexivity|].
  intros v Hv. vm_compute in Hv.
  repeat (apply elem_of_cons in Hv as [->|Hv]; [simpl; lia|]).
  by apply elem_of_nil in Hv.
Qed.

Lemma getValidator_indices (w1 w2 : World) (vi : Z) :
  PixiValidator.index <$> validators w1 = PixiValidator.index <$> validators w2 →
  getValidator w1 vi = getValidator w2 vi.
Proof.
  unfold getValidator. generalize (validators w1), (validators w2).
  intros l1. induction l1 as [|x l1 IH]; intros [|y l2] Hidx; try done.
  injection Hidx as Hxy Hidx. simpl. rewrite Hxy.
  case_decide; [done|].
  specialize (IH l2 Hidx).
  destruct (list_find _ l1) as [[]|], (list_find _ l2) as [[]|];
    simpl in *; congruence.
Qed.

Lemma applyVote_unknown (w : World) (vote : VoteSummary) :
  ¬ knownVote w vote → applyVote w vote = w.
Proof.
  unfold knownVote, applyVote. intros H.
  destruct (getValidator w _); [|done].
  destruct (getAttestation w _); [|done].
  destruct H. split; eauto.
Qed.

Lemma knownVote_applyVote (w : World) (v vote : VoteSummary) :
  knownVote (applyVote w v) vote ↔ knownVote w vote.
Proof.
  destruct (applyVote_frame w v) as (_ & _ & _ & _ & Hatt & _ & _ & _ & _ & Hidx).
  unfold knownVote, getAttestation. simpl in *.
  by rewrite Hatt, (getValidator_indices _ _ _ Hidx).
Qed.

(** The vote loop does the same with and without the votes it skips. *)
Lemma fold_applyVote_filter (w0 : World) (votes : list VoteSummary) (w : World) :
  (∀ vote, knownVote w vote ↔ knownVote w0 vote) →
  fold_left applyVote (filter (knownVote w0) votes) w = fold_left applyVote votes w.
Proof.
  revert w. induction votes as [|v votes IH]; intros w Hw; [done|].
  rewrite filter_cons. simpl. case_decide as Hv.
  - simpl. apply IH. intros vote. by rewrite knownVote_applyVote.
  - rewrite (applyVote_unknown w v) by (by rewrite Hw). by apply IH.
Qed.

Lemma merged_withoutUnknownVotes (w : World) (d : MemoryDiff.t) :
  merged w (withoutUnknownVotes w d) = merged w d.
Proof. unfold merged. simpl. by apply fold_applyVote_filter. Qed.

(** C6: a vote whose validator index or attestation pointer does not
    resolve leaves the world as it is; [updateWorld] on a diff behaves
    exactly as on the same diff without such votes, now and together with
    any later diff (so a later diff that brings the attestation attaches
    nothing in retrospect); a diff without votes leaves every validator
    with the vote list it had; and a diff with such votes is answered
    ['ok'] like any other when it is accepted. *)
Theorem unknown_votes_are_dropped (fuel : nat) (w : World) (d : MemoryDiff.t) :
  (∀ w0 vote,
     getValidator w0 (validatorIndex vote) = None
     ∨ getAttestation w0 (attestationPtr vote) = None →
     applyVote w0 vote = w0)
  ∧ updateWorld fuel w d = updateWorld fuel w (withoutUnknownVotes w d)
  ∧ (∀ d2, updateTwice fuel w d d2 = updateTwice fuel w (withoutUnknownVotes w d) d2)
  ∧ (∀ r w', MemoryDiff.latestVotes d = [] →
       updateWorld fuel w d = Some (r, w') →
       ∀ i v, validators w !! i = Some v → validators w' !! i = Some v)
  ∧ (∀ k, rejects w d = None → headSpineEnds k (merged w d) = true →
       (enoughFuel k (merged w d) ≤ fuel)%nat →
       ∃ w', updateWorld fuel w d = Some (ok, w')).
Proof.
  assert (Heq : updateWorld fuel w d = updateWorld fuel w (withoutUnknownVotes w d)).
  { unfold updateWorld. by rewrite merged_withoutUnknownVotes. }
  split; [|split; [exact Heq|split; [|split]]].
  - intros w0 vote Hunk. apply applyVote_unknown.
    intros [[? Hv] [? Ha]]. destruct Hunk; congruence.
  - intros d2. unfold updateTwice. by rewrite Heq.
  - intros r w' Hnil Hu i v Hi.
    destruct (rejects w d) as [r0|] eqn:Hrej.
    + unfold updateWorld in Hu. rewrite Hrej in Hu. by injection Hu as <- <-.
    + destruct (updateWorld_accepts _ _ _ _ _ Hrej Hu) as (_ & _ & _ & -> & _).
      unfold merged, beforeVotes. rewrite Hnil. simpl.
      match goal with |- context [fold_left addAttestation ?l ?w0] =>
        destruct (fold_addAttestation_frame l w0) as (_ & -> & _) end.
      match goal with |- context [fold_left addBlock ?l ?w0] =>
        destruct (fold_addBlock_frame l w0) as (_ & -> & _) end.
      simpl.
      destruct (growValidators_frame w d) as (_ & _ & _ & _ & _ & _ & _ & _ & _ & ->).
      by apply lookup_app_l_Some.
  - intros k. by apply updateWorld_returns.
Qed.

(** The scenario of the early vote: validator [0] has no vote after the
    vote for the unknown attestation [99], and none after [99] arrives. *)
Example early_vote_is_lost :
  ∃ w2, updateTwice 5 genesisWorld (earlyVoteDiff 1) (lateAttestationDiff 2)
        = Some (ok, w2)
        ∧ PixiValidator.lastVotes <$> validators w2 = [[]; []; []]
        ∧ is_Some (getAttestation w2 99).
Proof.
  eexists. split; [vm_compute; reflexivity|]. split; [vm_compute; reflexivity|].
  eexists. vm_compute. reflexivity.
Qed.

(** ** The tree index *)

(** The entry of a merged block carries the delivered parent and slot. *)
Lemma mergeTree_self (tr : gmap Z TreeEntry) (b : BlockSummary.t) :
  ∃ e, mergeTree tr b !! BlockSummary.selfPtr b = Some e
       ∧ parent e = BlockSummary.parent b ∧ slot e = BlockSummary.slot b.
Proof.
  unfold mergeTree.
  set (tr1 := match tr !! BlockSummary.selfPtr b with
              | Some e => _ | None => _ end).
  assert (H1 : ∃ e, tr1 !! BlockSummary.selfPtr b = Some e
                    ∧ parent e = BlockSummary.parent b
                    ∧ slot e = BlockSummary.slot b).
  { subst tr1. destruct (tr !! BlockSummary.selfPtr b);
      rewrite lookup_insert_eq; eauto. }
  destruct H1 as (e & He & Hp & Hs).
  destruct (decide (BlockSummary.parent b = BlockSummary.selfPtr b)) as [Heq|Hne].
  - rewrite Heq, He.
    match goal with |- context [if ?c then _ else _] => destruct c end;
      [rewrite lookup_insert_eq | rewrite He];
      (eexists; split; [done|]; simpl; split; congruence).
  - destruct (tr1 !! BlockSummary.parent b) as [pe|];
      [match goal with |- context [if ?c then _ else _] => destruct c end|];
      rewrite ?lookup_insert_ne by done; eauto.
Qed.

(** When the pointer has an entry already and the named parent is a known
    block other than the root sentinel, the parent's entry is left as it
    is: nothing is appended. *)
Lemma mergeTree_known_parent_untouched (tr : gmap Z TreeEntry) (b : BlockSummary.t)
    (e pe : TreeEntry) :
  tr !! BlockSummary.selfPtr b = Some e →
  tr !! BlockSummary.parent b = Some pe →
  BlockSummary.parent b ≠ 0 →
  BlockSummary.parent b ≠ BlockSummary.selfPtr b →
  mergeTree tr b !! BlockSummary.parent b = Some pe.
Proof.
  intros He Hpe H0 Hne. unfold mergeTree. rewrite He.
  rewrite (lookup_insert_ne _ _ _ _ (not_eq_sym Hne)), Hpe, lookup_insert_eq. simpl.
  destruct (Z.eqb_spec (BlockSummary.parent b) 0); [done|].
  by rewrite lookup_insert_ne.
Qed.

(** Where the double insertion cannot happen: a block that is not its own
    parent and that is new or does not hang under the root sentinel keeps
    the children lists free of repetition. *)
Lemma mergeTree_treeOk (tr : gmap Z TreeEntry) (b : BlockSummary.t) :
  treeOk tr →
  BlockSummary.parent b ≠ BlockSummary.selfPtr b →
  tr !! BlockSummary.selfPtr b = None ∨ BlockSummary.parent b ≠ 0 →
  treeOk (mergeTree tr b).
Proof.
  intros Hok Hne Hcase. unfold mergeTree.
  set (self := BlockSummary.selfPtr b) in *.
  set (par := BlockSummary.parent b) in *.
  set (tr1 := match tr !! self with Some e => _ | None => _ end).
  assert (Hdom : ∀ c, is_Some (tr !! c) → is_Some (tr1 !! c)).
  { intros c Hc. subst tr1. destruct (tr !! self);
      (destruct (decide (c = self)) as [->|];
       [rewrite lookup_insert_eq | rewrite lookup_insert_ne]; eauto). }
  assert (Hself : is_Some (tr1 !! self)).
  { subst tr1. destruct (tr !! self); rewrite lookup_insert_eq; eauto. }
  assert (Hpar : tr !! par = tr1 !! par).
  { subst tr1. destruct (tr !! self); by rewrite lookup_insert_ne. }
  assert (Hok1 : treeOk tr1).
  { intros p e Hp. subst tr1. destruct (tr !! self) as [e0|] eqn:He0.
    - destruct (decide (p = self)) as [->|Hps].
      + rewrite lookup_insert_eq in Hp. injection Hp as <-. simpl.
        destruct (Hok _ _ He0) as [Hnd Hin]. split; [done|].
        intros c Hc. apply Hdom, Hin, Hc.
      + rewrite lookup_insert_ne in Hp by done.
        destruct (Hok _ _ Hp) as [Hnd Hin]. split; [done|].
        intros c Hc. apply Hdom, Hin, Hc.
    - destruct (decide (p = self)) as [->|Hps].
      + rewrite lookup_insert_eq in Hp. injection Hp as <-. simpl.
        split; [apply NoDup_singleton|].
        intros c ->%list_elem_of_singleton. exact Hself.
      + rewrite lookup_insert_ne in Hp by done.
        destruct (Hok _ _ Hp) as [Hnd Hin]. split; [done|].
        intros c Hc. apply Hdom, Hin, Hc. }
  assert (Hins : ∀ (pe : TreeEntry),
            NoDup (children pe) →
            (∀ c, c ∈ children pe → is_Some (tr1 !! c)) →
            treeOk (<[par := pe]> tr1)).
  { intros pe Hnd Hin p e Hp.
    assert (Hdom' : ∀ c, is_Some (tr1 !! c) → is_Some (<[par := pe]> tr1 !! c)).
    { intros c Hc. destruct (decide (c = par)) as [->|];
        [rewrite lookup_insert_eq | rewrite lookup_insert_ne]; eauto. }
    destruct (decide (p = par)) as [->|Hpp].
    - rewrite lookup_insert_eq in Hp. injection Hp as <-.
      split; [done|]. intros c Hc. apply Hdom', Hin, Hc.
    - rewrite lookup_insert_ne in Hp by done.
      destruct (Hok1 _ _ Hp) as [Hnd' Hin']. split; [done|].
      intros c Hc. apply Hdom', Hin', Hc. }
  destruct (tr1 !! par) as [pe|] eqn:Hpe.
  - match goal with |- treeOk (if ?c then _ else _) => destruct c eqn:Hunset end;
      [|exact Hok1].
    destruct (tr !! self) as [e0|] eqn:He0.
    + (* known pointer: the test reads the delivered parent, which is not 0 *)
      destruct Hcase as [|Hp0]; [done|]. exfalso.
      subst tr1. rewrite lookup_insert_eq in Hunset. simpl in Hunset.
      by apply Z.eqb_eq in Hunset.
    + (* new pointer: it is in no children list yet *)
      apply Hins; simpl.
      * destruct (Hok _ _ Hpar) as [Hnd Hin].
        apply NoDup_app. split; [done|]. split; [|apply NoDup_singleton].
        intros c Hc ->%list_elem_of_singleton.
        destruct (Hin _ Hc) as [? Hs]. fold self in Hs. congruence.
      * intros c [Hc| ->%list_elem_of_singleton]%elem_of_app; [|exact Hself].
        destruct (Hok1 _ _ Hpe) as [_ Hin]. by apply Hin.
  - apply Hins; simpl; [apply NoDup_singleton|].
    intros c ->%list_elem_of_singleton. exact Hself.
Qed.

Lemma treeOk_empty : treeOk ∅.
Proof. intros p e Hp. by rewrite lookup_empty in Hp. Qed.

(** Deliveries in any order of blocks that are not their own parent and do
    not hang under the root sentinel keep every children list free of
    repetition. *)
Lemma fold_mergeTree_treeOk (bs : list BlockSummary.t) (tr : gmap Z TreeEntry) :
  treeOk tr →
  Forall (λ b, BlockSummary.parent b ≠ BlockSummary.selfPtr b
               ∧ BlockSummary.parent b ≠ 0) bs →
  treeOk (fold_left mergeTree bs tr).
Proof.
  revert tr. induction bs as [|b bs IH]; intros tr Hok Hbs; simpl; [done|].
  apply Forall_cons in Hbs as [[Hne H0] Hbs].
  apply IH; [|done]. apply mergeTree_treeOk; auto.
Qed.

(** C3 fails on the code: block [1] under the root sentinel [0], delivered
    by two successive diffs, is twice in the children list of the entry
    of [0]. *)
Theorem redelivered_root_block_is_listed_twice :
  let w' := worldAfter 5 genesisWorld (genesisDiff 1) in
  updateWorld 5 genesisWorld (genesisDiff 1) = Some (ok, w')
  ∧ children <$> tree genesisWorld !! 0 = Some [1]
  ∧ children <$> tree w' !! 0 = Some [1; 1]
  ∧ ¬ (∀ p e, tree w' !! p = Some e → NoDup (children e)).
Proof.
  split; [vm_compute; reflexivity|].
  split; [vm_compute; reflexivity|].
  assert (H : tree (worldAfter 5 genesisWorld (genesisDiff 1)) !! 0
              = Some (mkTreeEntry 0 0 [1; 1])) by (vm_compute; reflexivity).
  split; [by rewrite H|].
  intros Hnd. specialize (Hnd 0 _ H). simpl in Hnd.
  apply NoDup_cons in Hnd as [Hin _]. apply Hin, list_elem_of_singleton. done.
Qed.

(** C4 fails on the code: [2] has a placeholder entry (made for its child
    [3]) and is in no children list; when block [2] arrives as a child of
    the known block [1], its entry takes the delivered parent and slot,
    but [2] is not appended to the children of [1]. *)
Theorem placeholder_is_not_linked_to_known_parent :
  placeholderTree !! 2 = Some (mkTreeEntry 0 0 [3])
  ∧ children <$> placeholderTree !! 1 = Some [1]
  ∧ mergeTree placeholderTree lateParentBlock !! 2 = Some (mkTreeEntry 1 2 [3])
  ∧ children <$> mergeTree placeholderTree lateParentBlock !! 1 = Some [1]
  ∧ ¬ (∀ e, mergeTree placeholderTree lateParentBlock !! 1 = Some e → 2 ∈ children e).
Proof.
  split; [vm_compute; reflexivity|].
  split; [vm_compute; reflexivity|].
  split; [vm_compute; reflexivity|].
  assert (H : mergeTree placeholderTree lateParentBlock !! 1
              = Some (mkTreeEntry 0 1 [1])) by (vm_compute; reflexivity).
  split; [by rewrite H|].
  intros Hin. specialize (Hin _ H). simpl in Hin.
  apply list_elem_of_singleton in Hin. done.
Qed.

(** ** Positions *)




Lemma sameHead_snoc (hd : Z) (l : list PixiAttestation.t) (x : PixiAttestation.t) :
  sameHead hd (l ++ [x])
  = sameHead hd l
    + (if decide (AttestationSummary.head (PixiAttestation.attestation x) = hd)
       then 1 else 0).
Proof.
  unfold sameHead. rewrite filter_app, length_app, Nat2Z.inj_add. f_equal.
  rewrite filter_cons, filter_nil. by case_decide.
Qed.

Lemma sameHead_nonneg (hd : Z) (l : list PixiAttestation.t) : 0 ≤ sameHead hd l.
Proof. unfold sameHead. lia. Qed.



(** The loop over the attestations: [attCounts] counts the attestations
    seen per head, and the attestation at index [i] is placed with the
    count of its head among the [i] attestations before it. *)
Lemma placeAttestation_loop (ord : gmap Z Z) (l : list PixiAttestation.t) :
  let s := fold_left (placeAttestation ord) l (∅, []) in
  (∀ hd, s.1 !! hd = if decide (sameHead hd l = 0) then None else Some (sameHead hd l))
  ∧ length s.2 = length l
  ∧ ∀ i att, l !! i = Some att →
      s.2 !! i
      = Some (PixiAttestation.mk (PixiAttestation.attestation att)
                (PixiAttestation.source att) (PixiAttestation.target att)
                (PixiAttestation.head att)
                (Num (AttestationSummary.slot (PixiAttestation.attestation att)
                      * slotWidth + attOffsetX),
                 Num (orderOrZero ord (AttestationSummary.head (PixiAttestation.attestation att))
                      * slotHeight
                      + sameHead (AttestationSummary.head (PixiAttestation.attestation att))
                          (take i l) * attOffsetY))).
Proof.
  induction l as [|x l IH] using rev_ind; simpl.
  - split; [|split]; [intros hd; by rewrite lookup_empty | done |].
    intros i att Hi. by rewrite lookup_nil in Hi.
  - rewrite fold_left_app. simpl in *.
    destruct IH as (Hcnt & Hlen & Hpos).
    set (s := fold_left (placeAttestation ord) l (∅, [])) in *.
    set (hx := AttestationSummary.head (PixiAttestation.attestation x)).
    assert (Hc : match s.1 !! hx with Some n => n + 1 | None => 1 end
                 = sameHead hx l + 1).
    { rewrite Hcnt. case_decide as H0; [by rewrite H0 | done]. }
    rewrite Hc.
    split; [|split].
    + intros hd. rewrite sameHead_snoc. fold hx.
      pose proof (sameHead_nonneg hd l).
      destruct (decide (hx = hd)) as [<-|Hne].
      * rewrite lookup_insert_eq. case_decide; [lia | done].
      * rewrite lookup_insert_ne by done. rewrite Hcnt, Z.add_0_r. done.
    + rewrite !length_app, Hlen. done.
    + intros i att Hi.
      destruct (decide (i < length l)%nat) as [Hlt|Hge].
      * rewrite lookup_app_l in Hi by done.
        rewrite lookup_app_l by (rewrite Hlen; lia).
        rewrite take_app_le by lia. by apply Hpos.
      * assert (i = length l) as ->.
        { apply lookup_lt_Some in Hi. rewrite length_app in Hi. simpl in Hi. lia. }
        rewrite list_lookup_middle in Hi by done. injection Hi as <-.
        rewrite list_lookup_middle by (by rewrite Hlen).
        rewrite take_app_length. unfold orderOrZero. fold hx.
        by replace (sameHead hx l + 1 - 1) with (sameHead hx l) by lia.
Qed.




(** * Further properties *)

(** ** The tree index over a run of deliveries *)

Lemma mergeTree_entry (tr : gmap Z TreeEntry) (b : BlockSummary.t)
    (p : Z) (e : TreeEntry) :
  tr !! p = Some e →
  ∃ e', mergeTree tr b !! p = Some e'
        ∧ children e `prefix_of` children e'
        ∧ (p ≠ BlockSummary.selfPtr b → parent e' = parent e ∧ slot e' = slot e).
Proof.
  intros Hp. unfold mergeTree.
  set (self := BlockSummary.selfPtr b).
  set (par := BlockSummary.parent b).
  set (tr1 := match tr !! self with Some e0 => _ | None => _ end).
  assert (H1 : ∃ e1, tr1 !! p = Some e1 ∧ children e1 = children e
                     ∧ (p ≠ self → e1 = e)).
  { subst tr1. destruct (decide (p = self)) as [->|Hne].
    - rewrite Hp, lookup_insert_eq. eexists. split; [done|]. by split.
    - destruct (tr !! self); rewrite lookup_insert_ne by done; eauto. }
  destruct H1 as (e1 & He1 & Hc1 & Hsame).
  assert (Hdone : ∀ e', e' = e1 →
            ∃ e'', Some e' = Some e''
                   ∧ children e `prefix_of` children e''
                   ∧ (p ≠ self → parent e'' = parent e ∧ slot e'' = slot e)).
  { intros e' ->. exists e1. split; [done|]. rewrite Hc1. split; [done|].
    intros Hne. by rewrite (Hsame Hne). }
  destruct (tr1 !! par) as [pe|] eqn:Hpe.
  - match goal with |- context [if ?c then _ else _] => destruct c end.
    + destruct (decide (p = par)) as [->|Hne].
      * rewrite lookup_insert_eq. rewrite He1 in Hpe. injection Hpe as <-.
        eexists. split; [done|]. simpl. rewrite <- Hc1.
        split; [by apply prefix_app_r|]. intros Hne. by rewrite (Hsame Hne).
      * rewrite lookup_insert_ne, He1 by done. by apply Hdone.
    + rewrite He1. by apply Hdone.
  - assert (p ≠ par) by (intros ->; congruence).
    rewrite lookup_insert_ne, He1 by done. by apply Hdone.
Qed.

(** X1: merging a block never removes an entry and never shortens or
    reorders a children list (the old list is a prefix of the new one);
    an entry under another pointer than the block's own keeps its parent
    and slot, so data of a delivered block is never replaced by the
    zeroes of a placeholder. *)
Theorem mergeTree_keeps_entries (tr : gmap Z TreeEntry) (b : BlockSummary.t)
    (p : Z) (e : TreeEntry) :
  tr !! p = Some e →
  ∃ e', mergeTree tr b !! p = Some e'
        ∧ children e `prefix_of` children e'
        ∧ (p ≠ BlockSummary.selfPtr b → parent e' = parent e ∧ slot e' = slot e).
Proof. apply mergeTree_entry. Qed.

Lemma mergeTree_keeps_entries_witness :
  ∃ e', mergeTree placeholderTree lateParentBlock !! 1 = Some e'
        ∧ [1] `prefix_of` children e'
        ∧ (1 ≠ 2 → parent e' = 0 ∧ slot e' = 1).
Proof.
  apply (mergeTree_keeps_entries placeholderTree lateParentBlock 1
           (mkTreeEntry 0 1 [1])).
  vm_compute. reflexivity.
Defined.

Lemma fold_mergeTree_entry (bs : list BlockSummary.t) (tr : gmap Z TreeEntry)
    (p : Z) (e : TreeEntry) :
  tr !! p = Some e →
  Forall (λ b, BlockSummary.selfPtr b ≠ p) bs →
  ∃ e', fold_left mergeTree bs tr !! p = Some e'
        ∧ parent e' = parent e ∧ slot e' = slot e.
Proof.
  revert tr e. induction bs as [|b bs IH]; intros tr e Hp Hbs; simpl; [eauto|].
  apply Forall_cons in Hbs as [Hb Hbs].
  destruct (mergeTree_entry tr b p e Hp) as (e1 & He1 & _ & Hsame).
  destruct (Hsame (not_eq_sym Hb)) as [<- <-]. by apply IH.
Qed.

(** X2: after any run of deliveries, in any order and with repetitions,
    the entry of a delivered pointer carries the parent and the slot of
    the block that was delivered last under that pointer. *)
Theorem tree_entry_is_last_delivered (bs : list BlockSummary.t)
    (tr : gmap Z TreeEntry) (p : Z) (b : BlockSummary.t) :
  lastDelivered p bs = Some b →
  ∃ e, fold_left mergeTree bs tr !! p = Some e
       ∧ parent e = BlockSummary.parent b ∧ slot e = BlockSummary.slot b.
Proof.
  unfold lastDelivered. revert tr.
  induction bs as [|b0 bs IH]; intros tr Hlast; [done|].
  rewrite filter_cons in Hlast. simpl.
  destruct (decide (Forall (λ b', BlockSummary.selfPtr b' ≠ p) bs)) as [Hnone|Hsome].
  - (* [b0] is the last delivery under [p] *)
    assert (Hnil : filter (λ b', BlockSummary.selfPtr b' = p) bs = []).
    { clear -Hnone. induction bs as [|b' bs IH]; [done|].
      apply Forall_cons in Hnone as [Hb' Hnone].
      rewrite filter_cons. case_decide; [done|]. by apply IH. }
    rewrite Hnil in Hlast. case_decide as Hb0; [|done].
    injection Hlast as <-.
    destruct (mergeTree_self tr b0) as (e0 & He0 & <- & <-).
    rewrite Hb0 in He0. by apply fold_mergeTree_entry.
  - (* a later delivery under [p] exists *)
    apply IH.
    assert (Hne : filter (λ b', BlockSummary.selfPtr b' = p) bs ≠ []).
    { intros Hnil. apply Hsome. clear -Hnil.
      induction bs as [|b' bs IH]; [constructor|].
      rewrite filter_cons in Hnil. case_decide; [done|].
      constructor; [done | by apply IH]. }
    case_decide; [|done].
    destruct (filter (λ b', BlockSummary.selfPtr b' = p) bs) as [|x l] eqn:Hf;
      [done|]. by rewrite last_cons_cons in Hlast.
Qed.

Lemma tree_entry_is_last_delivered_witness :
  ∃ e, fold_left mergeTree [sampleBlock 2 1 2; rootBlock; sampleBlock 2 7 9] ∅ !! 2
       = Some e
       ∧ parent e = 7 ∧ slot e = 9.
Proof.
  apply (tree_entry_is_last_delivered
           [sampleBlock 2 1 2; rootBlock; sampleBlock 2 7 9] ∅ 2 (sampleBlock 2 7 9)).
  vm_compute. reflexivity.
Defined.

Lemma mergeTree_has_self_and_parent (tr : gmap Z TreeEntry) (b : BlockSummary.t) :
  is_Some (mergeTree tr b !! BlockSummary.selfPtr b)
  ∧ is_Some (mergeTree tr b !! BlockSummary.parent b).
Proof.
  split.
  - destruct (mergeTree_self tr b) as (e & -> & _). eauto.
  - unfold mergeTree.
    set (tr1 := match tr !! BlockSummary.selfPtr b with
                | Some e0 => _ | None => _ end).
    destruct (tr1 !! BlockSummary.parent b) as [pe|] eqn:Hpe.
    + match goal with |- context [if ?c then _ else _] => destruct c end.
      * rewrite lookup_insert_eq. eauto.
      * rewrite Hpe. eauto.
    + rewrite lookup_insert_eq. eauto.
Qed.

Lemma mergeTree_parentClosed (tr : gmap Z TreeEntry) (b : BlockSummary.t) :
  parentClosed tr → parentClosed (mergeTree tr b).
Proof.
  intros Hcl p e' Hp.
  assert (Hdom : ∀ q, is_Some (tr !! q) → is_Some (mergeTree tr b !! q)).
  { intros q [eq Hq].
    destruct (mergeTree_entry tr b q eq Hq) as (? & -> & _). eauto. }
  destruct (decide (p = BlockSummary.selfPtr b)) as [->|Hne].
  - destruct (mergeTree_self tr b) as (e & He & Hpar & _).
    rewrite He in Hp. injection Hp as <-. right. rewrite Hpar.
    apply mergeTree_has_self_and_parent.
  - destruct (tr !! p) as [e|] eqn:Hold.
    + destruct (mergeTree_entry tr b p e Hold) as (e1 & He1 & _ & Hsame).
      rewrite He1 in Hp. injection Hp as <-.
      destruct (Hsame Hne) as [-> _].
      destruct (Hcl p e Hold) as [?|?]; [by left | right; by apply Hdom].
    + (* a new entry under another pointer is the parent's placeholder *)
      left. revert Hp. unfold mergeTree.
      set (tr1 := match tr !! BlockSummary.selfPtr b with
                  | Some e0 => _ | None => _ end).
      assert (H1 : tr1 !! p = None).
      { subst tr1. destruct (tr !! BlockSummary.selfPtr b);
          by rewrite lookup_insert_ne. }
      destruct (tr1 !! BlockSummary.parent b) as [pe|] eqn:Hpe.
      * assert (p ≠ BlockSummary.parent b) by (intros ->; congruence).
        match goal with |- context [if ?c then _ else _] => destruct c end;
          rewrite ?lookup_insert_ne by done; congruence.
      * destruct (decide (p = BlockSummary.parent b)) as [->|Hnp].
        -- rewrite lookup_insert_eq. by intros [= <-].
        -- rewrite lookup_insert_ne by done. congruence.
Qed.

Lemma fold_mergeTree_parentClosed (bs : list BlockSummary.t) :
  parentClosed (fold_left mergeTree bs ∅)
  ∧ ∀ b, b ∈ bs →
      is_Some (fold_left mergeTree bs ∅ !! BlockSummary.selfPtr b)
      ∧ is_Some (fold_left mergeTree bs ∅ !! BlockSummary.parent b).
Proof.
  assert (Hgen : ∀ tr, parentClosed tr →
            parentClosed (fold_left mergeTree bs tr)
            ∧ (∀ q, is_Some (tr !! q) → is_Some (fold_left mergeTree bs tr !! q))
            ∧ ∀ b, b ∈ bs →
                is_Some (fold_left mergeTree bs tr !! BlockSummary.selfPtr b)
                ∧ is_Some (fold_left mergeTree bs tr !! BlockSummary.parent b)).
  { induction bs as [|b0 bs IH]; intros tr Hcl; simpl.
    - split; [done|]. split; [done|]. intros b Hb. by apply elem_of_nil in Hb.
    - destruct (IH (mergeTree tr b0) (mergeTree_parentClosed tr b0 Hcl))
        as (Hcl' & Hdom & Hall).
      split; [done|]. split.
      + intros q [eq Hq]. apply Hdom.
        destruct (mergeTree_entry tr b0 q eq Hq) as (? & -> & _). eauto.
      + intros b [->|Hb]%elem_of_cons; [|by apply Hall].
        destruct (mergeTree_has_self_and_parent tr b0). split; by apply Hdom. }
  destruct (Hgen ∅) as (Hcl & _ & Hall); [|done].
  intros p e Hp. by rewrite lookup_empty in Hp.
Qed.

(** X3: in a tree built from nothing by any run of deliveries, every
    delivered block has an entry under its own pointer and one under its
    parent pointer, and every entry names as parent the root sentinel or a
    pointer that has an entry: the walk towards the root never runs into a
    hole. *)
Theorem delivered_tree_is_parent_closed (bs : list BlockSummary.t) :
  parentClosed (fold_left mergeTree bs ∅)
  ∧ ∀ b, b ∈ bs →
      is_Some (fold_left mergeTree bs ∅ !! BlockSummary.selfPtr b)
      ∧ is_Some (fold_left mergeTree bs ∅ !! BlockSummary.parent b).
Proof. apply fold_mergeTree_parentClosed. Qed.

(** X4: a run of deliveries from a tree whose children lists are free of
    repetition and list only pointers that have an entry (as in the empty
    tree), in which no block is its own parent and every block is new
    or does not hang under the root sentinel when its turn comes, leaves
    every children list free of repetition and every listed child with an
    entry; a child may come before its parent. *)
Theorem clean_deliveries_keep_children_distinct (bs : list BlockSummary.t)
    (tr : gmap Z TreeEntry) :
  treeOk tr → cleanDeliveries tr bs → treeOk (fold_left mergeTree bs tr).
Proof.
  revert tr. induction bs as [|b bs IH]; intros tr Hok Hbs; simpl; [done|].
  destruct Hbs as (Hne & Hnew & Hbs).
  apply IH; [|done]. by apply mergeTree_treeOk.
Qed.

Lemma clean_deliveries_keep_children_distinct_witness :
  treeOk (fold_left mergeTree [rootBlock; grandchildBlock; lateParentBlock] ∅).
Proof.
  apply (clean_deliveries_keep_children_distinct
           [rootBlock; grandchildBlock; lateParentBlock] ∅).
  - apply treeOk_empty.
  - simpl. split; [done|]. split; [by left|].
    split; [done|]. split; [by left|].
    split; [done|]. split; [right; done|]. done.
Defined.

(** ** Sprites and lookups *)

(** A lookup by name sees the names only. *)
Lemma find_index_fmap {A : Type} (f : A → Z) (p : Z) (l1 l2 : list A) :
  f <$> l1 = f <$> l2 →
  fst <$> list_find (λ x, f x = p) l1 = fst <$> list_find (λ x, f x = p) l2.
Proof.
  revert l2. induction l1 as [|x l1 IH]; intros [|y l2] Hf; try done.
  injection Hf as Hxy Hf. simpl. rewrite Hxy.
  case_decide; [done|].
  specialize (IH l2 Hf).
  destruct (list_find _ l1) as [[]|], (list_find _ l2) as [[]|];
    simpl in *; congruence.
Qed.

(** A name that is found stays found, at the same place, when children
    are added. *)
Lemma find_index_app {A : Type} (f : A → Z) (p : Z) (l l' : list A) (i : nat) :
  fst <$> list_find (λ x, f x = p) l = Some i →
  fst <$> list_find (λ x, f x = p) (l ++ l') = Some i.
Proof.
  destruct (list_find (λ x, f x = p) l) as [[j x]|] eqn:Hf; [|done].
  intros [= ->]. by rewrite (list_find_app_l _ _ _ _ _ Hf).
Qed.

Lemma getBlock_ext (w1 w2 : World) (p : Z) :
  PixiBlock.block <$> blocks w1 = PixiBlock.block <$> blocks w2 →
  getBlock w1 p = getBlock w2 p.
Proof.
  intros H. unfold getBlock.
  apply (find_index_fmap (BlockSummary.selfPtr ∘ PixiBlock.block)).
  by rewrite !list_fmap_compose, H.
Qed.

Lemma getAttestation_ext (w1 w2 : World) (p : Z) :
  attCore <$> attestations w1 = attCore <$> attestations w2 →
  getAttestation w1 p = getAttestation w2 p.
Proof.
  intros H. unfold getAttestation.
  apply (find_index_fmap (AttestationSummary.selfPtr ∘ PixiAttestation.attestation)).
  apply (f_equal (fmap (λ c, AttestationSummary.selfPtr c.1.1.1))) in H.
  by rewrite <- !list_fmap_compose in H.
Qed.

Lemma fold_addAttestation_sprites (l : list AttestationSummary.t) (w : World) :
  attestations (fold_left addAttestation l w)
  = attestations w
    ++ ((λ a, PixiAttestation.new a
                (getBlock w (AttestationSummary.source a))
                (getBlock w (AttestationSummary.target a))
                (getBlock w (AttestationSummary.head a))) <$> l).
Proof.
  revert w. induction l as [|a l IH]; intros w; simpl.
  - by rewrite app_nil_r.
  - rewrite IH. simpl. by rewrite <- app_assoc.
Qed.

Lemma placeAttestations_cores (ord : gmap Z Z) (l : list PixiAttestation.t) :
  attCore <$> placeAttestations ord l = attCore <$> l.
Proof.
  destruct (placeAttestation_loop ord l) as (_ & Hlen & Hpos).
  fold (placeAttestations ord l) in Hlen, Hpos.
  apply list_eq. intros i. rewrite !list_lookup_fmap.
  destruct (l !! i) as [att|] eqn:Hi.
  - by rewrite (Hpos _ _ Hi).
  - apply lookup_ge_None in Hi. rewrite <- Hlen in Hi.
    by rewrite (proj2 (lookup_ge_None _ _) Hi).
Qed.

(** The layout moves sprites and nothing else. *)
Lemma layoutDag_sprites (fuel : nat) (w w' : World) :
  layoutDag fuel w = Some w' →
  PixiBlock.block <$> blocks w' = PixiBlock.block <$> blocks w
  ∧ attCore <$> attestations w' = attCore <$> attestations w.
Proof.
  unfold layoutDag. intros H.
  destruct (last (head w)); [destruct (dagOrder fuel w)|]; simplify_eq; simpl.
  - split; [|apply placeAttestations_cores].
    rewrite <- list_fmap_compose. by apply list_fmap_ext.
  - done.
Qed.

Lemma ok_is_accepted (fuel : nat) (w : World) (d : MemoryDiff.t) (w' : World) :
  updateWorld fuel w d = Some (ok, w') →
  rejects w d = None
  ∧ ∃ lw, layoutDag fuel (merged w d) = Some lw
          ∧ w' = setNextDiffIndex (drawRelations lw)
                   (numAdd (MemoryDiff.diffIndex d) 1).
Proof.
  intros Hu. unfold updateWorld in Hu.
  destruct (rejects w d) as [r0|] eqn:Hrej.
  - injection Hu as -> _.
    by destruct (rejects_Some _ _ _ Hrej) as (n & _ & [[? _]|[? _]]).
  - split; [done|].
    destruct (layoutDag fuel (merged w d)) as [lw|]; [|done].
    injection Hu as <-. eauto.
Qed.

Lemma not_ok_is_rejected (fuel : nat) (w : World) (d : MemoryDiff.t)
    (r : Status) (w' : World) :
  updateWorld fuel w d = Some (r, w') → r ≠ ok → w' = w.
Proof.
  intros Hu Hr. unfold updateWorld in Hu.
  destruct (rejects w d) as [r0|]; [by injection Hu as _ <-|].
  destruct (layoutDag fuel (merged w d)); [|done]. by injection Hu as <- _.
Qed.

Lemma updateWorld_sprites (fuel : nat) (w : World) (d : MemoryDiff.t)
    (w' : World) :
  updateWorld fuel w d = Some (ok, w') →
  PixiBlock.block <$> blocks w'
  = (PixiBlock.block <$> blocks w) ++ MemoryDiff.blocks d
  ∧ attCore <$> attestations w'
    = (attCore <$> attestations w)
      ++ (resolvedCore w d <$> MemoryDiff.attestations d).
Proof.
  intros Hu.
  assert (Hacc : rejects w d = None).
  { destruct (rejects w d) as [r0|] eqn:Hrej; [|done].
    unfold updateWorld in Hu. rewrite Hrej in Hu. injection Hu as -> _.
    by destruct (rejects_Some _ _ _ Hrej) as (n & _ & [[? _]|[? _]]). }
  unfold updateWorld in Hu. rewrite Hacc in Hu.
  destruct (layoutDag fuel (merged w d)) as [lw|] eqn:Hl; [|done].
  injection Hu as <-. simpl.
  destruct (layoutDag_sprites _ _ _ Hl) as [-> ->].
  destruct (merged_frame w d) as (_ & _ & _ & -> & _).
  split.
  { rewrite fmap_app, <- list_fmap_compose. f_equal. apply list_fmap_id. }
  unfold merged.
  match goal with |- context [fold_left applyVote ?vs ?w0] =>
    destruct (fold_applyVote_frame vs w0) as (_ & _ & _ & _ & -> & _) end.
  unfold resolvedCore, beforeVotes.
  set (w3 := fold_left addBlock _ _).
  rewrite fold_addAttestation_sprites, fmap_app, <- list_fmap_compose.
  assert (Hatt : attestations w3 = attestations w).
  { subst w3.
    match goal with |- context [fold_left addBlock ?l ?w0] =>
      destruct (fold_addBlock_frame l w0) as (_ & _ & _ & _ & -> & _) end.
    simpl. by destruct (growValidators_frame w d) as (_ & _ & _ & _ & -> & _). }
  rewrite Hatt. f_equal. apply list_fmap_ext. intros i a _. unfold attCore. simpl.
  assert (Hg : ∀ p, getBlock (fold_left addAttestation (MemoryDiff.attestations d) w3) p
                    = getBlock w3 p).
  { intros p. apply getBlock_ext.
    by destruct (fold_addAttestation_frame (MemoryDiff.attestations d) w3)
      as (_ & _ & _ & _ & -> & _). }
  by rewrite !Hg.
Qed.

(** X5: an accepted diff adds, in order, one block sprite per block of the
    diff and one attestation sprite per attestation of the diff, whose
    three block references are looked up once, among the blocks known
    after the blocks of this diff; the sprites that were there keep their
    place, their summary and their references. *)
Theorem accepted_diff_appends_sprites (fuel : nat) (w : World) (d : MemoryDiff.t)
    (w' : World) :
  updateWorld fuel w d = Some (ok, w') →
  PixiBlock.block <$> blocks w'
  = (PixiBlock.block <$> blocks w) ++ MemoryDiff.blocks d
  ∧ attCore <$> attestations w'
    = (attCore <$> attestations w)
      ++ (resolvedCore w d <$> MemoryDiff.attestations d).
Proof. apply updateWorld_sprites. Qed.

Lemma accepted_diff_appends_sprites_witness :
  attCore <$> attestations (worldAfter 5 genesisWorld (lateAttestationDiff 1))
  = [(sampleAtt 99 1 1 1, None, Some 0%nat, Some 0%nat)].
Proof.
  rewrite (proj2 (accepted_diff_appends_sprites 5 genesisWorld (lateAttestationDiff 1)
                    (worldAfter 5 genesisWorld (lateAttestationDiff 1)) eq_refl)).
  vm_compute. reflexivity.
Defined.

(** ** Worlds that [updateWorld] can produce *)

Lemma Reachable_inv (P : World → Prop) :
  P newWorld →
  (∀ fuel w d lw, Reachable w → P w → rejects w d = None →
     layoutDag fuel (merged w d) = Some lw →
     P (setNextDiffIndex (drawRelations lw) (numAdd (MemoryDiff.diffIndex d) 1))) →
  ∀ w, Reachable w → P w.
Proof.
  intros Hnew Hstep w Hw. induction Hw as [|fuel w d r w' Hw IH Hu]; [done|].
  destruct r.
  - by rewrite (not_ok_is_rejected _ _ _ _ _ Hu).
  - destruct (ok_is_accepted _ _ _ _ Hu) as (Hacc & lw & Hl & ->). eauto.
  - by rewrite (not_ok_is_rejected _ _ _ _ _ Hu).
Qed.

Lemma Reachable_genesisWorld : Reachable genesisWorld.
Proof.
  apply (reach_update 5 newWorld (genesisDiff 0) ok); [constructor|].
  vm_compute. reflexivity.
Defined.

(** A lookup by index among sprites numbered [0], [1], ... is a bounds
    check. *)
Lemma find_index_seqZ {A : Type} (f : A → Z) (l : list A) (n vi : Z) :
  f <$> l = seqZ 0 n →
  fst <$> list_find (λ x, f x = vi) l
  = if decide (0 ≤ vi < n) then Some (Z.to_nat vi) else None.
Proof.
  intros Hl.
  assert (Hat : ∀ j y, l !! j = Some y → f y = Z.of_nat j ∧ Z.of_nat j < n).
  { intros j y Hj.
    assert (Hfj : (f <$> l) !! j = Some (f y)) by (by rewrite list_lookup_fmap, Hj).
    rewrite Hl in Hfj. apply lookup_seqZ in Hfj. lia. }
  case_decide as Hvi.
  - assert (Hx : is_Some (l !! Z.to_nat vi)).
    { apply lookup_lt_is_Some.
      rewrite <- (length_fmap f), Hl, length_seqZ. lia. }
    destruct Hx as [x Hx].
    rewrite (proj2 (list_find_Some (λ x, f x = vi) l (Z.to_nat vi) x)); [done|].
    split; [done|]. split.
    + destruct (Hat _ _ Hx). lia.
    + intros j y Hj Hlt. destruct (Hat _ _ Hj). lia.
  - rewrite (proj2 (list_find_None (λ x, f x = vi) l)); [done|].
    apply Forall_forall. intros y [j Hj]%list_elem_of_lookup.
    destruct (Hat _ _ Hj). lia.
Qed.

Lemma maxValCount_ge (start : Z) (heads : list HeadSummary.t) :
  start ≤ maxValCount start heads.
Proof. apply maxValCount_spec. Qed.

Lemma reachable_validator_indices (w : World) :
  Reachable w →
  0 ≤ valCount w
  ∧ PixiValidator.index <$> validators w = seqZ 0 (valCount w).
Proof.
  revert w. apply Reachable_inv; [done|].
  intros fuel w d lw _ [Hpos Hidx] Hacc Hl.
  destruct (layoutDag_frame _ _ _ Hl) as (HvC & Hvs & _).
  destruct (merged_frame w d) as (Hm & _ & _ & _ & _ & _ & _ & _ & _ & Hidx').
  pose proof (maxValCount_ge (valCount w) (MemoryDiff.head d)) as Hge.
  simpl in *. rewrite HvC, Hvs, Hidx', Hidx, Hm. split; [lia|].
  rewrite <- (seqZ_app 0) by lia. f_equal. lia.
Qed.

(** X6: in every world that [updateWorld] can produce from the
    constructor's world, the validators are numbered 0, 1, ... up to the
    validator count, in this order, and [getValidator] is a bounds check:
    it finds validator [vi], at place [vi], exactly when
    [0 <= vi < valCount]. *)
Theorem reachable_getValidator (w : World) (vi : Z) :
  Reachable w →
  PixiValidator.index <$> validators w = seqZ 0 (valCount w)
  ∧ getValidator w vi
    = if decide (0 ≤ vi < valCount w) then Some (Z.to_nat vi) else None.
Proof.
  intros Hw. destruct (reachable_validator_indices w Hw) as [_ Hidx].
  split; [done|]. unfold getValidator. by apply find_index_seqZ.
Qed.

Lemma reachable_getValidator_witness :
  getValidator genesisWorld 2 = Some 2%nat ∧ getValidator genesisWorld 3 = None.
Proof.
  split.
  - rewrite (proj2 (reachable_getValidator genesisWorld 2 Reachable_genesisWorld)).
    vm_compute. reflexivity.
  - rewrite (proj2 (reachable_getValidator genesisWorld 3 Reachable_genesisWorld)).
    vm_compute. reflexivity.
Defined.

Lemma find_index_image {A B : Type} (f : A → B) (g : B → Z) (p : Z) (l : list A) :
  fst <$> list_find (λ x, g (f x) = p) l
  = fst <$> list_find (λ y, g y = p) (f <$> l).
Proof.
  induction l as [|x l IH]; [done|]. simpl.
  case_decide; [done|].
  change (list_fmap A B f l) with (f <$> l).
  destruct (list_find _ l) as [[]|], (list_find _ (f <$> l)) as [[]|];
    simpl in *; congruence.
Qed.

Lemma getBlock_summaries (w : World) (p : Z) :
  getBlock w p
  = fst <$> list_find (λ b, BlockSummary.selfPtr b = p) (PixiBlock.block <$> blocks w).
Proof. unfold getBlock. apply (find_index_image PixiBlock.block). Qed.

Lemma getAttestation_cores (w : World) (p : Z) :
  getAttestation w p
  = fst <$> list_find (λ c, AttestationSummary.selfPtr c.1.1.1 = p)
              (attCore <$> attestations w).
Proof.
  unfold getAttestation.
  apply (find_index_image attCore (λ c, AttestationSummary.selfPtr c.1.1.1)).
Qed.

Lemma getValidator_indices_list (w : World) (vi : Z) :
  getValidator w vi
  = fst <$> list_find (λ i, i = vi) (PixiValidator.index <$> validators w).
Proof. unfold getValidator. apply (find_index_image PixiValidator.index id). Qed.

Lemma find_app_stable {B : Type} (g : B → Z) (p : Z) (l l' : list B) (i : nat) :
  fst <$> list_find (λ y, g y = p) l = Some i →
  fst <$> list_find (λ y, g y = p) (l ++ l') = Some i.
Proof.
  destruct (list_find (λ y, g y = p) l) as [[j x]|] eqn:Hf; [|done].
  intros [= ->]. by rewrite (list_find_app_l _ _ _ _ _ Hf).
Qed.

Lemma find_app_new {B : Type} (g : B → Z) (l l' : list B) (y : B) :
  y ∈ l' → is_Some (fst <$> list_find (λ z, g z = g y) (l ++ l')).
Proof.
  intros Hy.
  destruct (list_find_elem_of (λ z, g z = g y) (l ++ l') y) as [[i x] ->];
    [apply elem_of_app; by right | done | by eexists].
Qed.

Lemma updateWorld_validator_indices (fuel : nat) (w : World) (d : MemoryDiff.t)
    (w' : World) :
  updateWorld fuel w d = Some (ok, w') →
  PixiValidator.index <$> validators w'
  = (PixiValidator.index <$> validators w)
    ++ seqZ (valCount w) (valCount w' - valCount w).
Proof.
  intros Hu. destruct (ok_is_accepted _ _ _ _ Hu) as (Hacc & lw & Hl & ->).
  destruct (layoutDag_frame _ _ _ Hl) as (HvC & Hvs & _).
  destruct (merged_frame w d) as (_ & _ & _ & _ & _ & _ & _ & _ & _ & Hidx).
  simpl in *. by rewrite HvC, Hvs, Hidx.
Qed.

Lemma updateWorld_lookups (fuel : nat) (w : World) (d : MemoryDiff.t)
    (r : Status) (w' : World) :
  updateWorld fuel w d = Some (r, w') →
  (∀ p i, getBlock w p = Some i → getBlock w' p = Some i)
  ∧ (∀ p i, getAttestation w p = Some i → getAttestation w' p = Some i)
  ∧ (∀ vi i, getValidator w vi = Some i → getValidator w' vi = Some i)
  ∧ (r = ok →
       (∀ b, b ∈ MemoryDiff.blocks d →
          is_Some (getBlock w' (BlockSummary.selfPtr b)))
       ∧ (∀ a, a ∈ MemoryDiff.attestations d →
            is_Some (getAttestation w' (AttestationSummary.selfPtr a)))).
Proof.
  intros Hu. destruct r;
    try (rewrite (not_ok_is_rejected _ _ _ _ _ Hu) by done; by repeat split).
  destruct (updateWorld_sprites _ _ _ _ Hu) as [Hb Ha].
  pose proof (updateWorld_validator_indices _ _ _ _ Hu) as Hv.
  split; [|split; [|split]].
  - intros p i. rewrite !getBlock_summaries, Hb. apply find_app_stable.
  - intros p i. rewrite !getAttestation_cores, Ha.
    apply (find_app_stable (λ c, AttestationSummary.selfPtr c.1.1.1)).
  - intros vi i. rewrite !getValidator_indices_list, Hv. apply (find_app_stable id).
  - intros _. split.
    + intros b Hin. rewrite getBlock_summaries, Hb.
      by apply (find_app_new BlockSummary.selfPtr).
    + intros a Hin. rewrite getAttestation_cores, Ha.
      apply (find_app_new (λ c, AttestationSummary.selfPtr c.1.1.1) _ _
               (resolvedCore w d a)).
      apply list_elem_of_fmap. eauto.
Qed.

(** X7: a pointer or index that [getBlock], [getAttestation] or
    [getValidator] resolves keeps resolving to the same sprite after every
    call of [updateWorld]: when a pointer is delivered again, the lookups
    go on returning the first sprite and never the new one.  After an
    accepted diff every block pointer and every attestation pointer of
    the diff resolves. *)
Theorem lookups_are_stable (fuel : nat) (w : World) (d : MemoryDiff.t)
    (r : Status) (w' : World) :
  updateWorld fuel w d = Some (r, w') →
  (∀ p i, getBlock w p = Some i → getBlock w' p = Some i)
  ∧ (∀ p i, getAttestation w p = Some i → getAttestation w' p = Some i)
  ∧ (∀ vi i, getValidator w vi = Some i → getValidator w' vi = Some i)
  ∧ (r = ok →
       (∀ b, b ∈ MemoryDiff.blocks d →
          is_Some (getBlock w' (BlockSummary.selfPtr b)))
       ∧ (∀ a, a ∈ MemoryDiff.attestations d →
            is_Some (getAttestation w' (AttestationSummary.selfPtr a)))).
Proof. apply updateWorld_lookups. Qed.

Lemma lookups_are_stable_witness :
  getBlock (worldAfter 5 genesisWorld (genesisDiff 1)) 1 = Some 0%nat
  ∧ length (blocks (worldAfter 5 genesisWorld (genesisDiff 1))) = 2%nat.
Proof.
  split; [|vm_compute; reflexivity].
  apply (lookups_are_stable 5 genesisWorld (genesisDiff 1) ok
           (worldAfter 5 genesisWorld (genesisDiff 1))).
  - vm_compute. reflexivity.
  - vm_compute. reflexivity.
Defined.

Lemma resolvedTo_stable (w w' : World) (ref : option nat) (ptr : Z) :
  (∀ p i, getBlock w p = Some i → getBlock w' p = Some i) →
  resolvedTo w ref ptr → resolvedTo w' ref ptr.
Proof. intros Hst Hr i Hi. by apply Hst, Hr. Qed.

Lemma reachable_attRefs (w : World) : Reachable w → attRefsOk w.
Proof.
  intros Hw. induction Hw as [|fuel w d r w' Hw IH Hu].
  { intros pa Hpa. by apply elem_of_nil in Hpa. }
  destruct (updateWorld_lookups _ _ _ _ _ Hu) as (Hst & _).
  destruct r; try (by rewrite (not_ok_is_rejected _ _ _ _ _ Hu)).
  destruct (updateWorld_sprites _ _ _ _ Hu) as [Hb Ha].
  intros pa' Hpa'.
  assert (Hc : attCore pa' ∈ attCore <$> attestations w')
    by (apply list_elem_of_fmap; eauto).
  rewrite Ha in Hc. apply elem_of_app in Hc as [Hold|Hnew].
  - apply list_elem_of_fmap in Hold as (pa & Hcore & Hpa).
    destruct (IH pa Hpa) as (Hs & Ht & Hh).
    unfold attCore in Hcore. injection Hcore as -> -> -> ->.
    repeat split; by apply (resolvedTo_stable w).
  - apply list_elem_of_fmap in Hnew as (a & Hcore & _).
    unfold attCore, resolvedCore in Hcore. injection Hcore as -> -> -> ->.
    assert (Hg : ∀ p, getBlock w' p = getBlock (beforeVotes w d) p).
    { intros p. apply getBlock_ext. rewrite Hb. unfold beforeVotes.
      match goal with |- context [fold_left addAttestation ?l ?w0] =>
        destruct (fold_addAttestation_frame l w0) as (_ & _ & _ & _ & -> & _) end.
      match goal with |- context [fold_left addBlock ?l ?w0] =>
        destruct (fold_addBlock_frame l w0)
          as (_ & _ & _ & _ & _ & _ & _ & _ & -> & _) end.
      simpl. destruct (growValidators_frame w d) as (_ & _ & _ & -> & _).
      rewrite fmap_app, <- list_fmap_compose. f_equal. symmetry. apply list_fmap_id. }
    repeat split; intros i Hi; by rewrite Hg.
Qed.

(** X8: in every world that [updateWorld] can produce, a block reference
    that an attestation sprite holds (source, target or head) is the
    sprite that [getBlock] returns for the pointer of that name in the
    attestation: the first block sprite delivered under it. *)
Theorem reachable_attestations_point_at_named_blocks (w : World)
    (pa : PixiAttestation.t) (i : nat) :
  Reachable w → pa ∈ attestations w →
  (PixiAttestation.source pa = Some i →
     getBlock w (AttestationSummary.source (PixiAttestation.attestation pa)) = Some i)
  ∧ (PixiAttestation.target pa = Some i →
       getBlock w (AttestationSummary.target (PixiAttestation.attestation pa)) = Some i)
  ∧ (PixiAttestation.head pa = Some i →
       getBlock w (AttestationSummary.head (PixiAttestation.attestation pa)) = Some i).
Proof.
  intros Hw Hpa. destruct (reachable_attRefs w Hw pa Hpa) as (Hs & Ht & Hh).
  repeat split; intros Hi; [by apply Hs | by apply Ht | by apply Hh].
Qed.

Lemma Reachable_lateAttestation :
  Reachable (worldAfter 5 genesisWorld (lateAttestationDiff 1)).
Proof.
  apply (reach_update 5 genesisWorld (lateAttestationDiff 1) ok);
    [apply Reachable_genesisWorld|].
  vm_compute. reflexivity.
Defined.

Lemma reachable_attestations_point_at_named_blocks_witness :
  getBlock (worldAfter 5 genesisWorld (lateAttestationDiff 1)) 1 = Some 0%nat.
Proof.
  apply (reachable_attestations_point_at_named_blocks
           (worldAfter 5 genesisWorld (lateAttestationDiff 1))
           (PixiAttestation.mk (sampleAtt 99 1 1 1) None (Some 0%nat) (Some 0%nat)
              (Num 40, Num 0))
           0%nat Reachable_lateAttestation).
  - apply list_elem_of_lookup. exists 0%nat. vm_compute. reflexivity.
  - reflexivity.
Defined.

(** ** The vote list *)

Lemma insert_sorted_perm {A : Type} (key : A → Z) (x : A) (l : list A) :
  insert_sorted key x l ≡ₚ x :: l.
Proof.
  induction l as [|y l IH]; simpl; [done|].
  destruct (key x <? key y); [done|].
  rewrite IH. apply Permutation_swap.
Qed.

Lemma sort_by_perm {A : Type} (key : A → Z) (l : list A) : sort_by key l ≡ₚ l.
Proof.
  unfold sort_by.
  assert (H : ∀ acc, fold_left (λ acc x, insert_sorted key x acc) l acc ≡ₚ acc ++ l).
  { induction l as [|x l IH]; intros acc; simpl; [by rewrite app_nil_r|].
    rewrite IH, insert_sorted_perm. simpl. apply Permutation_middle. }
  by rewrite H.
Qed.

(** X9: while a validator has fewer than three votes, [addVote] records
    the new vote: the list becomes the old votes and the new one,
    arranged by ascending target pointer. *)
Theorem addVote_below_three (atts : list PixiAttestation.t) (v : PixiValidator.t)
    (att : nat) :
  (length (PixiValidator.lastVotes v) < 3)%nat →
  PixiValidator.lastVotes (PixiValidator.addVote atts v att)
    ≡ₚ att :: PixiValidator.lastVotes v
  ∧ StronglySorted
      (λ a b, PixiValidator.voteKey atts a ≤ PixiValidator.voteKey atts b)
      (PixiValidator.lastVotes (PixiValidator.addVote atts v att)).
Proof.
  intros Hlen. split; [|apply addVote_ascending].
  unfold PixiValidator.addVote. simpl.
  pose proof (sort_by_perm (PixiValidator.voteKey atts)
                (PixiValidator.lastVotes v ++ [att])) as Hp.
  assert (Hl : length (sort_by (PixiValidator.voteKey atts)
                         (PixiValidator.lastVotes v ++ [att]))
               = S (length (PixiValidator.lastVotes v))).
  { rewrite Hp, length_app. simpl. lia. }
  destruct (Nat.ltb_spec 3 (length (sort_by (PixiValidator.voteKey atts)
                                     (PixiValidator.lastVotes v ++ [att]))));
    [lia|].
  rewrite Hp. symmetry. apply Permutation_cons_append.
Qed.

Lemma addVote_below_three_witness :
  PixiValidator.lastVotes
    (PixiValidator.addVote
       (attestations (worldAfter 5 genesisWorld (fourVotesDiff 1)))
       (PixiValidator.mk 0 [2; 3]%nat) 0%nat)
  ≡ₚ [0; 2; 3]%nat.
Proof.
  apply (addVote_below_three
           (attestations (worldAfter 5 genesisWorld (fourVotesDiff 1)))
           (PixiValidator.mk 0 [2; 3]%nat) 0%nat).
  simpl. lia.
Defined.

(** X10: when a validator has three votes, [addVote] keeps three of the
    four votes at hand and drops one whose target pointer is not below
    that of any vote it keeps: the vote with the largest target goes, be
    it the new one. *)
Theorem addVote_at_three (atts : list PixiAttestation.t) (v : PixiValidator.t)
    (att : nat) :
  length (PixiValidator.lastVotes v) = 3%nat →
  ∃ dropped,
    PixiValidator.lastVotes (PixiValidator.addVote atts v att) ++ [dropped]
      ≡ₚ att :: PixiValidator.lastVotes v
    ∧ length (PixiValidator.lastVotes (PixiValidator.addVote atts v att)) = 3%nat
    ∧ ∀ r, r ∈ PixiValidator.lastVotes (PixiValidator.addVote atts v att) →
        PixiValidator.voteKey atts r ≤ PixiValidator.voteKey atts dropped.
Proof.
  intros Hlen. unfold PixiValidator.addVote. simpl.
  pose proof (sort_by_perm (PixiValidator.voteKey atts)
                (PixiValidator.lastVotes v ++ [att])) as Hp.
  pose proof (sort_by_sorted (PixiValidator.voteKey atts)
                (PixiValidator.lastVotes v ++ [att])) as Hs.
  set (sorted := sort_by (PixiValidator.voteKey atts)
                   (PixiValidator.lastVotes v ++ [att])) in *.
  assert (Hl : length sorted = 4%nat).
  { rewrite Hp, length_app, Hlen. done. }
  destruct sorted as [|a [|b [|c [|x [|? ?]]]]]; try done. simpl.
  exists x. split.
  { change ([a; b; c] ++ [x]) with [a; b; c; x]. rewrite Hp.
    symmetry. apply Permutation_cons_append. }
  split; [done|].
  intros r Hr.
  apply (StronglySorted_app_1_elem_of _ [a; b; c] [x] r x Hs Hr).
  by apply list_elem_of_singleton.
Qed.

Lemma addVote_at_three_witness :
  ∃ dropped,
    PixiValidator.lastVotes
      (PixiValidator.addVote
         (attestations (worldAfter 5 genesisWorld (fourVotesDiff 1)))
         (PixiValidator.mk 0 [1; 2; 3]%nat) 0%nat) ++ [dropped]
    ≡ₚ [0; 1; 2; 3]%nat.
Proof.
  destruct (addVote_at_three
              (attestations (worldAfter 5 genesisWorld (fourVotesDiff 1)))
              (PixiValidator.mk 0 [1; 2; 3]%nat) 0%nat eq_refl)
    as (dropped & Hp & _).
  exists dropped. exact Hp.
Defined.

Lemma StronglySorted_on {A : Type} (R1 R2 : A → A → Prop) (l : list A) :
  (∀ a b, a ∈ l → b ∈ l → R1 a b → R2 a b) →
  StronglySorted R1 l → StronglySorted R2 l.
Proof.
  induction l as [|x l IH]; intros Hext Hs; [constructor|].
  apply StronglySorted_cons in Hs as [Hx Hs]. apply StronglySorted_cons. split.
  - apply Forall_forall. intros y Hy.
    apply Hext; [by left | by right |]. by apply (proj1 (Forall_forall _ _) Hx).
  - apply IH; [|done]. intros a b Ha Hb. apply Hext; by right.
Qed.

Lemma voteKey_cores (atts1 atts2 : list PixiAttestation.t) (ref : nat) :
  attCore <$> atts1 = attCore <$> atts2 →
  PixiValidator.voteKey atts1 ref = PixiValidator.voteKey atts2 ref.
Proof.
  intros H. unfold PixiValidator.voteKey.
  apply (f_equal (λ l, l !! ref)) in H. rewrite !list_lookup_fmap in H.
  destruct (atts1 !! ref) as [a1|], (atts2 !! ref) as [a2|]; simpl in *; try done.
  unfold attCore in H. by injection H as -> _ _ _.
Qed.

Lemma voteKey_app (atts l : list PixiAttestation.t) (ref : nat) :
  (ref < length atts)%nat →
  PixiValidator.voteKey (atts ++ l) ref = PixiValidator.voteKey atts ref.
Proof. intros H. unfold PixiValidator.voteKey. by rewrite lookup_app_l. Qed.

Lemma votesOk_cores (atts1 atts2 : list PixiAttestation.t) (v : PixiValidator.t) :
  attCore <$> atts1 = attCore <$> atts2 → votesOk atts1 v → votesOk atts2 v.
Proof.
  intros H (Hlen & Hin & Hs).
  assert (Hl : length atts1 = length atts2)
    by (by rewrite <- (length_fmap attCore atts1), H, length_fmap).
  split; [done|]. split; [by rewrite <- Hl|].
  eapply StronglySorted_on; [|exact Hs].
  intros a b _ _. simpl. by rewrite !(voteKey_cores atts1 atts2 _ H).
Qed.

Lemma votesOk_app (atts l : list PixiAttestation.t) (v : PixiValidator.t) :
  votesOk atts v → votesOk (atts ++ l) v.
Proof.
  intros (Hlen & Hin & Hs). split; [done|]. split.
  - eapply Forall_impl; [exact Hin|]. simpl. intros ref Href.
    rewrite length_app. lia.
  - eapply StronglySorted_on; [|exact Hs].
    intros a b Ha Hb. simpl. rewrite !voteKey_app; [done|..];
      by apply (proj1 (Forall_forall _ _) Hin).
Qed.

Lemma votesOk_addVote (atts : list PixiAttestation.t) (v : PixiValidator.t)
    (att : nat) :
  Forall (λ ref, (ref < length atts)%nat) (PixiValidator.lastVotes v) →
  (att < length atts)%nat →
  votesOk atts (PixiValidator.addVote atts v att).
Proof.
  intros Hin Hatt.
  split; [apply addVote_at_most_three|]. split; [|apply addVote_ascending].
  unfold PixiValidator.addVote. simpl.
  assert (Hall : Forall (λ ref, (ref < length atts)%nat)
                   (sort_by (PixiValidator.voteKey atts)
                      (PixiValidator.lastVotes v ++ [att]))).
  { rewrite sort_by_perm. apply Forall_app. split; [done|]. by constructor. }
  destruct (3 <? _)%nat; [|done]. by apply Forall_take.
Qed.

Lemma getAttestation_lt (w : World) (p : Z) (i : nat) :
  getAttestation w p = Some i → (i < length (attestations w))%nat.
Proof.
  unfold getAttestation.
  destruct (list_find _ (attestations w)) as [[j x]|] eqn:Hf; [|done].
  intros [= <-]. apply list_find_Some in Hf as (Hj & _). by eapply lookup_lt_Some.
Qed.

Lemma applyVote_votesOk (w : World) (vote : VoteSummary) :
  (∀ v, v ∈ validators w → votesOk (attestations w) v) →
  ∀ v, v ∈ validators (applyVote w vote) →
    votesOk (attestations (applyVote w vote)) v.
Proof.
  intros Hok. unfold applyVote.
  destruct (getValidator w _) as [vref|]; [|done].
  destruct (getAttestation w _) as [a|] eqn:Ha; [|done].
  destruct (validators w !! vref) as [val|] eqn:Hval; [|done].
  simpl. intros v Hv.
  apply list_elem_of_lookup in Hv as [j Hj].
  destruct (decide (j = vref)) as [->|Hne].
  - rewrite list_lookup_insert_eq in Hj by (by eapply lookup_lt_Some).
    injection Hj as <-. apply votesOk_addVote.
    + apply Hok. by eapply list_elem_of_lookup_2.
    + by eapply getAttestation_lt.
  - rewrite list_lookup_insert_ne in Hj by done.
    apply Hok. by eapply list_elem_of_lookup_2.
Qed.

Lemma fold_applyVote_votesOk (votes : list VoteSummary) (w : World) :
  (∀ v, v ∈ validators w → votesOk (attestations w) v) →
  ∀ v, v ∈ validators (fold_left applyVote votes w) →
    votesOk (attestations (fold_left applyVote votes w)) v.
Proof.
  revert w. induction votes as [|vote votes IH]; intros w Hok; simpl; [done|].
  apply IH. by apply applyVote_votesOk.
Qed.

Lemma merged_votesOk (w : World) (d : MemoryDiff.t) :
  (∀ v, v ∈ validators w → votesOk (attestations w) v) →
  ∀ v, v ∈ validators (merged w d) → votesOk (attestations (merged w d)) v.
Proof.
  intros Hok. unfold merged. apply fold_applyVote_votesOk.
  unfold beforeVotes. set (w3 := fold_left addBlock _ _).
  rewrite fold_addAttestation_sprites.
  destruct (fold_addAttestation_frame (MemoryDiff.attestations d) w3)
    as (_ & -> & _).
  assert (Hatt : attestations w3 = attestations w
                 ∧ validators w3 = validators (growValidators w d)).
  { subst w3.
    match goal with |- context [fold_left addBlock ?l ?w0] =>
      destruct (fold_addBlock_frame l w0) as (_ & -> & _ & _ & -> & _) end.
    simpl. by destruct (growValidators_frame w d) as (_ & _ & _ & _ & -> & _). }
  destruct Hatt as [-> ->].
  destruct (growValidators_frame w d) as (_ & _ & _ & _ & _ & _ & _ & _ & _ & ->).
  intros v [Hv|Hv]%elem_of_app; apply votesOk_app.
  - by apply Hok.
  - apply list_elem_of_fmap in Hv as (i & -> & _).
    split; [simpl; lia|]. split; constructor.
Qed.

Lemma reachable_votesOk (w : World) :
  Reachable w → ∀ v, v ∈ validators w → votesOk (attestations w) v.
Proof.
  revert w.
  apply (Reachable_inv (λ w, ∀ v, v ∈ validators w → votesOk (attestations w) v)).
  { intros v Hv. by apply elem_of_nil in Hv. }
  intros fuel w d lw _ Hok Hacc Hl. simpl.
  destruct (layoutDag_frame _ _ _ Hl) as (_ & -> & _).
  destruct (layoutDag_sprites _ _ _ Hl) as [_ Hcores].
  intros v Hv. apply (votesOk_cores (attestations (merged w d))); [done|].
  by apply merged_votesOk.
Qed.

(** X11: in every world that [updateWorld] can produce, each validator
    holds at most three votes, each vote refers to an attestation sprite
    of the world, and the votes run by ascending target pointer of their
    attestations. *)
Theorem reachable_vote_lists (w : World) (v : PixiValidator.t) :
  Reachable w → v ∈ validators w →
  (length (PixiValidator.lastVotes v) ≤ 3)%nat
  ∧ Forall (λ ref, is_Some (attestations w !! ref)) (PixiValidator.lastVotes v)
  ∧ StronglySorted
      (λ a b, PixiValidator.voteKey (attestations w) a
              ≤ PixiValidator.voteKey (attestations w) b)
      (PixiValidator.lastVotes v).
Proof.
  intros Hw Hv. destruct (reachable_votesOk w Hw v Hv) as (Hlen & Hin & Hs).
  split; [done|]. split; [|done].
  eapply Forall_impl; [exact Hin|]. simpl. intros ref. apply lookup_lt_is_Some.
Qed.

Lemma Reachable_fourVotes :
  Reachable (worldAfter 5 genesisWorld (fourVotesDiff 1)).
Proof.
  apply (reach_update 5 genesisWorld (fourVotesDiff 1) ok);
    [apply Reachable_genesisWorld|].
  vm_compute. reflexivity.
Defined.

Lemma reachable_vote_lists_witness :
  Forall (λ ref, is_Some (attestations (worldAfter 5 genesisWorld (fourVotesDiff 1))
                            !! ref))
    [0; 1; 2]%nat.
Proof.
  apply (reachable_vote_lists (worldAfter 5 genesisWorld (fourVotesDiff 1))
           (PixiValidator.mk 0 [0; 1; 2]%nat) Reachable_fourVotes).
  apply list_elem_of_lookup. exists 0%nat. vm_compute. reflexivity.
Defined.

Lemma reachable_tree (w : World) :
  Reachable w → tree w = fold_left mergeTree (PixiBlock.block <$> blocks w) ∅.
Proof.
  revert w.
  apply (Reachable_inv
           (λ w, tree w = fold_left mergeTree (PixiBlock.block <$> blocks w) ∅));
    [done|].
  intros fuel w d lw _ Htr Hacc Hl. simpl.
  destruct (layoutDag_frame _ _ _ Hl) as (_ & _ & _ & _ & -> & _).
  destruct (layoutDag_sprites _ _ _ Hl) as [-> _].
  destruct (merged_frame w d) as (_ & _ & _ & -> & _ & -> & _).
  rewrite fmap_app, fold_left_app, <- Htr. f_equal.
  rewrite <- list_fmap_compose. symmetry. apply list_fmap_id.
Qed.

(** X12: in every world that [updateWorld] can produce, the tree index is
    what merging the summaries of the block sprites, in the order of the
    container, into an empty index gives; every block sprite has an entry
    under its pointer and one under its parent pointer, and every entry
    names as parent the root sentinel or a pointer with an entry. *)
Theorem reachable_tree_follows_blocks (w : World) :
  Reachable w →
  tree w = fold_left mergeTree (PixiBlock.block <$> blocks w) ∅
  ∧ parentClosed (tree w)
  ∧ ∀ pb, pb ∈ blocks w →
      is_Some (tree w !! BlockSummary.selfPtr (PixiBlock.block pb))
      ∧ is_Some (tree w !! BlockSummary.parent (PixiBlock.block pb)).
Proof.
  intros Hw. pose proof (reachable_tree w Hw) as Htr. split; [done|].
  destruct (fold_mergeTree_parentClosed (PixiBlock.block <$> blocks w)) as [Hcl Hall].
  rewrite <- Htr in Hcl, Hall. split; [done|].
  intros pb Hpb. apply Hall, list_elem_of_fmap. eauto.
Qed.

Lemma reachable_tree_follows_blocks_witness :
  tree genesisWorld = fold_left mergeTree [rootBlock] ∅.
Proof.
  rewrite (proj1 (reachable_tree_follows_blocks genesisWorld Reachable_genesisWorld)).
  vm_compute. reflexivity.
Defined.

(** X13: the ordering check is skipped once only: a world that
    [updateWorld] can produce and that expects no index yet is the
    constructor's world, no diff has been applied to it; and in every such
    world [drawRelations] has run as often as [layoutDag]. *)
Theorem reachable_without_index_is_new (w : World) :
  Reachable w →
  (nextDiffIndex w = None → w = newWorld)
  ∧ layoutRuns w = relationDraws w.
Proof.
  revert w.
  apply (Reachable_inv
           (λ w, (nextDiffIndex w = None → w = newWorld)
                 ∧ layoutRuns w = relationDraws w)); [done|].
  intros fuel w d lw _ [_ Hruns] Hacc Hl. simpl. split; [done|].
  destruct (layoutDag_frame _ _ _ Hl) as (_ & _ & _ & _ & _ & _ & -> & ->).
  destruct (merged_frame w d) as (_ & _ & _ & _ & _ & _ & _ & -> & -> & _).
  by rewrite Hruns.
Qed.

Lemma reachable_without_index_is_new_witness :
  layoutRuns genesisWorld = relationDraws genesisWorld.
Proof.
  apply (reachable_without_index_is_new genesisWorld Reachable_genesisWorld).
Defined.

(** ** The message handler *)

Lemma updateWorld_off_index (fuel : nat) (w : World) (d : MemoryDiff.t) (n : Z) :
  nextDiffIndex w = Some n → MemoryDiff.diffIndex d ≠ n →
  ∃ r, updateWorld fuel w d = Some (r, w).
Proof.
  intros Hn Hd. unfold updateWorld, rejects. rewrite Hn.
  destruct (Z.ltb_spec n (MemoryDiff.diffIndex d)); [eauto|].
  destruct (Z.gtb_spec n (MemoryDiff.diffIndex d)); [eauto|]. lia.
Qed.

(** X14: the handler does not look at the status of [updateWorld]: a
    world that expects index [n] stays exactly as it is under any stream
    of messages in which no decoded diff carries [n].  Once the expected
    diff is lost, later diffs are all dropped and nothing else happens. *)
Theorem gap_freezes_the_world (fuel : nat) (w : World) (n : Z)
    (msgs : list (JsonResult MemoryDiff.t)) :
  nextDiffIndex w = Some n →
  Forall (λ m, ∀ d, m = JsonOk d → MemoryDiff.diffIndex d ≠ n) msgs →
  deliver fuel (Some w) msgs = Some (Some w).
Proof.
  intros Hn Hall. induction Hall as [|m msgs Hm _ IH]; [done|].
  simpl. destruct m as [d|err]; simpl; [|done].
  destruct (updateWorld_off_index fuel w d n Hn (Hm d eq_refl)) as [r ->]. done.
Qed.

Lemma gap_freezes_the_world_witness :
  deliver 5 (Some genesisWorld)
    [JsonOk (genesisDiff 2); JsonErr "bad"; JsonOk (strayDiff 3); JsonOk (genesisDiff 0)]
  = Some (Some genesisWorld).
Proof.
  apply (gap_freezes_the_world 5 genesisWorld 1); [reflexivity|].
  repeat constructor; intros d [= <-]; done.
Defined.

(** X15: a decoder error, or a decoded diff whose index lies in
    [-2^53, 2^53), handled twice in a row leaves what it leaves when
    handled once: the second copy of an applied diff is too old, a diff
    that was dropped is dropped again. *)
Theorem message_twice_is_message_once (fuel : nat) (world : option World)
    (m : JsonResult MemoryDiff.t) :
  (∀ d, m = JsonOk d → succExact (MemoryDiff.diffIndex d)) →
  deliver fuel world [m; m] = deliver fuel world [m].
Proof.
  intros Hm. simpl. destruct m as [d|err]; simpl; [|done].
  destruct world as [w|]; [|done].
  destruct (updateWorld fuel w d) as [[r w']|] eqn:Hu; [|done].
  destruct r.
  - pose proof (not_ok_is_rejected _ _ _ _ _ Hu ltac:(done)) as ->. by rewrite Hu.
  - destruct (ok_is_accepted _ _ _ _ Hu) as (_ & lw & _ & ->).
    unfold updateWorld. by rewrite (rejects_repeated _ d (Hm d eq_refl)).
  - pose proof (not_ok_is_rejected _ _ _ _ _ Hu ltac:(done)) as ->. by rewrite Hu.
Qed.

Lemma message_twice_is_message_once_witness :
  deliver 5 (Some genesisWorld) [JsonOk (genesisDiff 1); JsonOk (genesisDiff 1)]
  = deliver 5 (Some genesisWorld) [JsonOk (genesisDiff 1)].
Proof.
  apply (message_twice_is_message_once 5 (Some genesisWorld) (JsonOk (genesisDiff 1))).
  intros d Hd. injection Hd as <-. vm_compute. split; [discriminate | reflexivity].
Defined.

Lemma updateWorld_on_index (fuel : nat) (w : World) (d : MemoryDiff.t)
    (r : Status) (w' : World) :
  nextDiffIndex w = None ∨ nextDiffIndex w = Some (MemoryDiff.diffIndex d) →
  updateWorld fuel w d = Some (r, w') →
  r = ok
  ∧ nextDiffIndex w' = Some (numAdd (MemoryDiff.diffIndex d) 1)
  ∧ head w' = head w ++ MemoryDiff.head d
  ∧ finalized w' = finalized w ++ MemoryDiff.finalized d
  ∧ PixiBlock.block <$> blocks w'
    = (PixiBlock.block <$> blocks w) ++ MemoryDiff.blocks d
  ∧ PixiAttestation.attestation <$> attestations w'
    = (PixiAttestation.attestation <$> attestations w) ++ MemoryDiff.attestations d
  ∧ layoutRuns w' = S (layoutRuns w).
Proof.
  intros Hn Hu.
  assert (Hacc : rejects w d = None).
  { unfold rejects. destruct Hn as [-> | ->]; [done|].
    rewrite Z.ltb_irrefl.
    by destruct (Z.gtb_spec (MemoryDiff.diffIndex d) (MemoryDiff.diffIndex d)); [lia|]. }
  destruct (updateWorld_accepts _ _ _ _ _ Hacc Hu)
    as (-> & Hnext & _ & _ & Hh & Hf & _ & HL & _).
  destruct (updateWorld_sprites _ _ _ _ Hu) as [Hb Ha].
  destruct (merged_frame w d) as (_ & Hh' & Hf' & _).
  split; [done|]. split; [done|]. rewrite Hh, Hf, Hh', Hf'.
  split; [done|]. split; [done|]. split; [done|]. split; [|done].
  apply (f_equal (fmap (λ c, c.1.1.1))) in Ha.
  rewrite fmap_app, <- !list_fmap_compose in Ha.
  assert (Ha2 : PixiAttestation.attestation <$> attestations w'
                = (PixiAttestation.attestation <$> attestations w)
                  ++ ((λ c, c.1.1.1) ∘ resolvedCore w d <$> MemoryDiff.attestations d))
    by exact Ha.
  rewrite Ha2. f_equal.
  transitivity (id <$> MemoryDiff.attestations d);
    [by apply list_fmap_ext | apply list_fmap_id].
Qed.

(** X16: a stream of decoded diffs with consecutive indices between
    [-2^53] and [2^53], starting at the expected index (or at any index
    for a world that expects none yet), is applied diff by diff: when the
    handler has returned for all of them, the expected index has
    advanced by their number, the head and finalized logs and the block
    and attestation sprites are the old ones followed by those of the
    diffs in stream order, and [layoutDag] has run once per diff. *)
Theorem in_order_stream_is_applied (fuel : nat) (ds : list MemoryDiff.t)
    (w : World) (n : Z) (w' : World) :
  nextDiffIndex w = None ∨ nextDiffIndex w = Some n →
  consecutive n ds →
  - 2 ^ 53 ≤ n → n + Z.of_nat (length ds) ≤ 2 ^ 53 →
  deliver fuel (Some w) (JsonOk <$> ds) = Some (Some w') →
  (ds ≠ [] → nextDiffIndex w' = Some (n + Z.of_nat (length ds)))
  ∧ head w' = head w ++ concat (MemoryDiff.head <$> ds)
  ∧ finalized w' = finalized w ++ concat (MemoryDiff.finalized <$> ds)
  ∧ PixiBlock.block <$> blocks w'
    = (PixiBlock.block <$> blocks w) ++ concat (MemoryDiff.blocks <$> ds)
  ∧ PixiAttestation.attestation <$> attestations w'
    = (PixiAttestation.attestation <$> attestations w)
      ++ concat (MemoryDiff.attestations <$> ds)
  ∧ layoutRuns w' = (layoutRuns w + length ds)%nat.
Proof.
  revert w n. induction ds as [|d ds IH]; intros w n Hn Hcons Hlo Hhi Hdel.
  - simpl in *. injection Hdel as <-. rewrite !app_nil_r.
    repeat split; try done; lia.
  - simpl in Hdel.
    destruct (updateWorld fuel w d) as [[r w1]|] eqn:Hu; [|done].
    assert (Hd : MemoryDiff.diffIndex d = n).
    { rewrite (Hcons 0%nat d eq_refl). lia. }
    destruct (updateWorld_on_index fuel w d r w1) as (_ & Hn1 & Hh & Hf & Hb & Ha & HL);
      [rewrite Hd; exact Hn | done |].
    rewrite Hd, numAdd_succExact in Hn1
      by (unfold succExact; simpl length in Hhi; lia).
    destruct (IH w1 (n + 1)) as (Hn' & Hh' & Hf' & Hb' & Ha' & HL').
    { by right. }
    { intros i d' Hi. rewrite (Hcons (S i) d' Hi). lia. }
    { lia. }
    { simpl length in Hhi. lia. }
    { done. }
    simpl. rewrite Hh', Hf', Hb', Ha', HL', Hh, Hf, Hb, Ha, HL, <- !app_assoc.
    repeat split; try done; [|lia].
    intros _. destruct ds as [|d2 ds2].
    + simpl in *. injection Hdel as <-. rewrite Hn1. f_equal; lia.
    + rewrite Hn' by done. f_equal; simpl length; lia.
Qed.

Lemma in_order_stream_is_applied_witness :
  ∃ w', deliver 5 (Some newWorld) (JsonOk <$> [genesisDiff 7; growingDiff 8])
        = Some (Some w')
        ∧ nextDiffIndex w' = Some 9.
Proof.
  assert (Hd : ∃ w', deliver 5 (Some newWorld)
                       (JsonOk <$> [genesisDiff 7; growingDiff 8]) = Some (Some w'))
    by (eexists; vm_compute; reflexivity).
  destruct Hd as (w' & Hd). exists w'. split; [exact Hd|].
  apply (in_order_stream_is_applied 5 [genesisDiff 7; growingDiff 8] newWorld 7 w');
    [by left | | vm_compute; discriminate | vm_compute; discriminate | exact Hd | done].
  intros [|[|i]] d Hi; simpl in Hi; try done; injection Hi as <-; reflexivity.
Defined.

(** ** The layout *)

Lemma sameHead_cores (hd : Z) (l1 l2 : list PixiAttestation.t) :
  attCore <$> l1 = attCore <$> l2 → sameHead hd l1 = sameHead hd l2.
Proof.
  unfold sameHead. revert l2.
  induction l1 as [|a1 l1 IH]; intros [|a2 l2] H; try done.
  rewrite !fmap_cons in H.
  assert (Hc : attCore a1 = attCore a2) by congruence.
  assert (Ht : attCore <$> l1 = attCore <$> l2) by congruence.
  specialize (IH l2 Ht).
  rewrite !filter_cons.
  assert (Ha : PixiAttestation.attestation a1 = PixiAttestation.attestation a2).
  { unfold attCore in Hc. congruence. }
  rewrite Ha. case_decide; simpl; lia.
Qed.

Lemma placeAttestations_ext (ord : gmap Z Z) (l1 l2 : list PixiAttestation.t) :
  attCore <$> l1 = attCore <$> l2 →
  placeAttestations ord l1 = placeAttestations ord l2.
Proof.
  intros H.
  destruct (placeAttestation_loop ord l1) as (_ & Hlen1 & Hpos1).
  destruct (placeAttestation_loop ord l2) as (_ & Hlen2 & Hpos2).
  fold (placeAttestations ord l1) in Hlen1, Hpos1.
  fold (placeAttestations ord l2) in Hlen2, Hpos2.
  assert (Hl : length l1 = length l2)
    by (by rewrite <- (length_fmap attCore l1), H, length_fmap).
  apply list_eq. intros i.
  destruct (l1 !! i) as [a1|] eqn:H1.
  - assert (H2 : ∃ a2, l2 !! i = Some a2 ∧ attCore a1 = attCore a2).
    { apply (f_equal (λ l, l !! i)) in H. rewrite !list_lookup_fmap, H1 in H.
      destruct (l2 !! i) as [a2|]; [|done]. simpl in H.
      exists a2. split; [done | congruence]. }
    destruct H2 as (a2 & H2 & Hc).
    rewrite (Hpos1 _ _ H1), (Hpos2 _ _ H2).
    rewrite (sameHead_cores _ (take i l1) (take i l2))
      by (by rewrite !fmap_take, H).
    unfold attCore in Hc.
    assert (Hc1 : PixiAttestation.attestation a1 = PixiAttestation.attestation a2)
      by congruence.
    assert (Hc2 : PixiAttestation.source a1 = PixiAttestation.source a2)
      by congruence.
    assert (Hc3 : PixiAttestation.target a1 = PixiAttestation.target a2)
      by congruence.
    assert (Hc4 : PixiAttestation.head a1 = PixiAttestation.head a2)
      by congruence.
    by rewrite Hc1, Hc2, Hc3, Hc4.
  - apply lookup_ge_None in H1.
    rewrite (proj2 (lookup_ge_None _ _)) by (by rewrite Hlen1).
    by rewrite (proj2 (lookup_ge_None _ _)) by (rewrite Hlen2; lia).
Qed.

Lemma dagOrder_ext (fuel : nat) (w1 w2 : World) :
  head w1 = head w2 → tree w1 = tree w2 → dagOrder fuel w1 = dagOrder fuel w2.
Proof. unfold dagOrder. by intros -> ->. Qed.

(** X17: a second run of the layout on a world that has just been laid
    out returns and leaves every block and every attestation where the
    first run put it. *)
Theorem layout_twice_is_layout_once (fuel : nat) (w w1 : World) :
  layoutDag fuel w = Some w1 →
  ∃ w2, layoutDag fuel w1 = Some w2
        ∧ blocks w2 = blocks w1 ∧ attestations w2 = attestations w1.
Proof.
  intros Hl.
  destruct (layoutDag_frame _ _ _ Hl) as (_ & _ & Hh & _ & Ht & _).
  destruct (layoutDag_sprites _ _ _ Hl) as [_ Hcores].
  pose proof (dagOrder_ext fuel w1 w Hh Ht) as Hord.
  revert Hl. unfold layoutDag. rewrite Hh, Hord.
  destruct (last (head w)) as [hd|].
  - destruct (dagOrder fuel w) as [ord|]; [|done]. intros [= <-].
    eexists. split; [done|]. simpl. split.
    + rewrite <- list_fmap_compose. by apply list_fmap_ext.
    + apply placeAttestations_ext, placeAttestations_cores.
  - intros [= <-]. eexists. by split.
Qed.

Lemma layout_twice_is_layout_once_witness :
  ∃ w1 w2, layoutDag 5 strayWorld = Some w1 ∧ layoutDag 5 w1 = Some w2
           ∧ blocks w2 = blocks w1 ∧ attestations w2 = attestations w1.
Proof.
  assert (Hl : ∃ w1, layoutDag 5 strayWorld = Some w1)
    by (eexists; vm_compute; reflexivity).
  destruct Hl as (w1 & Hl). exists w1.
  destruct (layout_twice_is_layout_once 5 strayWorld w1 Hl) as (w2 & H2 & Hb & Ha).
  exists w2. split; [exact Hl|]. split; [exact H2|]. split; [exact Hb | exact Ha].
Defined.


Section Orders.
Variable tr : gmap Z TreeEntry.











Lemma walk_unfold (fuel pfuel : nat) (b : Z) (st : LayoutSt) :
  walk (S fuel) pfuel tr b st
  = match tr !! b with
    | None => Some st
    | Some e =>
        match process_block pfuel tr b st with
        | None => None
        | Some st1 =>
            if parent e =? 0 then Some st1 else walk fuel pfuel tr (parent e) st1
        end
    end.
Proof. done. Qed.


End Orders.








(** ** When the layout returns *)

Lemma mergeTree_new_entry (tr : gmap Z TreeEntry) (b : BlockSummary.t)
    (p : Z) (e' : TreeEntry) :
  tr !! p = None → p ≠ BlockSummary.selfPtr b →
  mergeTree tr b !! p = Some e' → parent e' = 0.
Proof.
  intros Hold Hne. unfold mergeTree.
  set (tr1 := match tr !! BlockSummary.selfPtr b with
              | Some e0 => _ | None => _ end).
  assert (H1 : tr1 !! p = None).
  { subst tr1. destruct (tr !! BlockSummary.selfPtr b); by rewrite lookup_insert_ne. }
  destruct (tr1 !! BlockSummary.parent b) as [pe|] eqn:Hpe.
  - assert (p ≠ BlockSummary.parent b) by (intros ->; congruence).
    match goal with |- context [if ?c then _ else _] => destruct c end;
      rewrite ?lookup_insert_ne by done; congruence.
  - destruct (decide (p = BlockSummary.parent b)) as [->|Hnp].
    + rewrite lookup_insert_eq. by intros [= <-].
    + rewrite lookup_insert_ne by done. congruence.
Qed.

Lemma spineEnds_survives (tr tr' : gmap Z TreeEntry) :
  parentClosed tr →
  (∀ q e, tr !! q = Some e → ∃ e', tr' !! q = Some e' ∧ parent e' = parent e) →
  ∀ k p, is_Some (tr !! p) → spineEnds tr k p = true → spineEnds tr' k p = true.
Proof.
  intros Hcl Hkeep k. induction k as [|k IH]; intros p [e He] Hk;
    simpl in *; rewrite He in Hk;
    destruct (Hkeep p e He) as (e' & -> & ->);
    destruct (Z.eqb_spec (parent e) 0) as [|Hp0]; try done.
  apply IH; [|done]. destruct (Hcl p e He); [done | done].
Qed.

Lemma mergeTree_spinesEnd (tr : gmap Z TreeEntry) (b : BlockSummary.t) :
  parentClosed tr → spinesEnd tr →
  tr !! BlockSummary.selfPtr b = None →
  BlockSummary.parent b ≠ BlockSummary.selfPtr b →
  spinesEnd (mergeTree tr b).
Proof.
  intros Hcl Hends Hfresh Hne.
  assert (Hkeep : ∀ q e, tr !! q = Some e →
            ∃ e', mergeTree tr b !! q = Some e' ∧ parent e' = parent e).
  { intros q e Hq. destruct (mergeTree_entry tr b q e Hq) as (e' & He' & _ & Hsame).
    exists e'. split; [done|]. apply Hsame. intros ->. congruence. }
  assert (Hold : ∀ p, is_Some (tr !! p) → ∃ k, spineEnds (mergeTree tr b) k p = true).
  { intros p Hp. destruct (Hends p) as [k Hk]. exists k.
    by apply (spineEnds_survives tr). }
  assert (Hnew : ∀ p, tr !! p = None → p ≠ BlockSummary.selfPtr b →
            spineEnds (mergeTree tr b) 0 p = true).
  { intros p Hp Hps. simpl.
    destruct (mergeTree tr b !! p) as [e'|] eqn:He'; [|done].
    by rewrite (mergeTree_new_entry tr b p e' Hp Hps He'). }
  intros p. destruct (tr !! p) as [e|] eqn:Hp; [apply Hold; eauto|].
  destruct (decide (p = BlockSummary.selfPtr b)) as [->|Hps]; [|eauto].
  destruct (mergeTree_self tr b) as (e & He & Hpar & _).
  destruct (Z.eqb_spec (BlockSummary.parent b) 0) as [H0|H0].
  - exists 0%nat. simpl. rewrite He, Hpar, H0. done.
  - assert (Hk : ∃ k, spineEnds (mergeTree tr b) k (BlockSummary.parent b) = true).
    { destruct (tr !! BlockSummary.parent b) eqn:Hpp; [apply Hold; eauto|].
      exists 0%nat. by apply Hnew. }
    destruct Hk as [k Hk]. exists (S k). simpl. rewrite He, Hpar.
    by destruct (Z.eqb_spec (BlockSummary.parent b) 0).
Qed.

Lemma fold_mergeTree_spinesEnd (bs : list BlockSummary.t) (tr : gmap Z TreeEntry) :
  parentClosed tr → spinesEnd tr → freshDeliveries tr bs →
  spinesEnd (fold_left mergeTree bs tr).
Proof.
  revert tr. induction bs as [|b bs IH]; intros tr Hcl Hends Hbs; simpl; [done|].
  destruct Hbs as (Hfresh & Hne & Hbs).
  apply IH; [by apply mergeTree_parentClosed | by apply mergeTree_spinesEnd | done].
Qed.

Lemma freshDeliveries_app (bs1 bs2 : list BlockSummary.t) (tr : gmap Z TreeEntry) :
  freshDeliveries tr (bs1 ++ bs2) →
  freshDeliveries (fold_left mergeTree bs1 tr) bs2.
Proof.
  revert tr. induction bs1 as [|b bs1 IH]; intros tr H; simpl in *; [done|].
  destruct H as (_ & _ & H). by apply IH.
Qed.

(** X20: when every block so far, those of the diff included, came under
    a pointer that was new at its turn and no block names itself as
    parent (no pointer delivered twice, no parent delivered after its
    child), the walk of the layout leaves its loop: with enough fuel
    [updateWorld] returns on the diff. *)
Theorem fresh_blocks_let_updateWorld_return (w : World) (d : MemoryDiff.t) :
  Reachable w →
  freshDeliveries ∅ ((PixiBlock.block <$> blocks w) ++ MemoryDiff.blocks d) →
  ∃ fuel0, ∀ fuel, (fuel0 ≤ fuel)%nat → ∃ r w', updateWorld fuel w d = Some (r, w').
Proof.
  intros Hw Hfresh.
  assert (Hends : spinesEnd (tree (merged w d))).
  { destruct (merged_frame w d) as (_ & _ & _ & _ & _ & -> & _).
    rewrite (reachable_tree w Hw), <- fold_left_app.
    apply fold_mergeTree_spinesEnd; [| |done].
    - intros p e Hp. by rewrite lookup_empty in Hp.
    - intros p. exists 0%nat. simpl. by rewrite lookup_empty. }
  assert (Hk : ∃ k, headSpineEnds k (merged w d) = true).
  { unfold headSpineEnds. destruct (last (head (merged w d))) as [hd|]; [|by exists 0%nat].
    apply Hends. }
  destruct Hk as [k Hk]. exists (enoughFuel k (merged w d)). intros fuel Hf.
  destruct (rejects w d) as [r0|] eqn:Hrej.
  - exists r0, w. unfold updateWorld. by rewrite Hrej.
  - destruct (updateWorld_returns k fuel w d Hrej Hk Hf) as [w' Hu]. eauto.
Qed.

Lemma fresh_blocks_let_updateWorld_return_witness :
  ∃ fuel0, ∀ fuel, (fuel0 ≤ fuel)%nat →
    ∃ r w', updateWorld fuel genesisWorld
              (MemoryDiff.mk 1 sampleMemory [sampleHead 3 3 3] []
                 [grandchildBlock; sampleBlock 4 3 4] [] [])
            = Some (r, w').
Proof.
  apply (fresh_blocks_let_updateWorld_return genesisWorld
           (MemoryDiff.mk 1 sampleMemory [sampleHead 3 3 3] []
              [grandchildBlock; sampleBlock 4 3 4] [] [])
           Reachable_genesisWorld).
  vm_compute. repeat split; discriminate.
Defined.






(** X22: a block that arrives under a pointer without entry is always
    listed among the children of its parent's entry, which is made for
    it when it is missing; the listing is never undone. *)
Theorem new_block_is_listed_under_parent (tr : gmap Z TreeEntry) (b : BlockSummary.t)
    (bs : list BlockSummary.t) :
  tr !! BlockSummary.selfPtr b = None →
  ∃ pe, fold_left mergeTree bs (mergeTree tr b) !! BlockSummary.parent b = Some pe
        ∧ BlockSummary.selfPtr b ∈ children pe.
Proof.
  intros Hfresh.
  assert (H1 : ∃ pe, mergeTree tr b !! BlockSummary.parent b = Some pe
                     ∧ BlockSummary.selfPtr b ∈ children pe).
  { unfold mergeTree. rewrite Hfresh.
    set (tr1 := <[BlockSummary.selfPtr b := _]> tr).
    destruct (tr1 !! BlockSummary.parent b) as [pe|] eqn:Hpe.
    - rewrite lookup_insert_eq. eexists. split; [done|]. simpl.
      apply elem_of_app. right. by apply list_elem_of_singleton.
    - rewrite lookup_insert_eq. eexists. split; [done|]. simpl.
      by apply list_elem_of_singleton. }
  destruct H1 as (pe & Hpe & Hin). clear Hfresh.
  revert pe Hpe Hin. generalize (mergeTree tr b). clear tr.
  induction bs as [|b0 bs IH]; intros tr pe Hpe Hin; simpl; [eauto|].
  destruct (mergeTree_entry tr b0 _ pe Hpe) as (pe' & Hpe' & Hpre & _).
  apply (IH _ pe' Hpe'). destruct Hpre as [k ->]. apply elem_of_app. by left.
Qed.

Lemma new_block_is_listed_under_parent_witness :
  ∃ pe, fold_left mergeTree [grandchildBlock; rootBlock]
          (mergeTree ∅ lateParentBlock) !! 1
        = Some pe
        ∧ 2 ∈ children pe.
Proof.
  apply (new_block_is_listed_under_parent ∅ lateParentBlock
           [grandchildBlock; rootBlock]).
  vm_compute. reflexivity.
Defined.

Section Closure.
Variable tr : gmap Z TreeEntry.







End Closure.



(** ** When the call returns *)

Lemma walk_returns_spineEnds (tr : gmap Z TreeEntry) (pfuel fuel : nat) :
  ∀ b st st', walk fuel pfuel tr b st = Some st' → spineEnds tr fuel b = true.
Proof.
  induction fuel as [|fuel IH]; intros b st st' Hw; [done|].
  rewrite walk_unfold in Hw. simpl.
  destruct (tr !! b) as [e|]; [|done].
  destruct (process_block pfuel tr b st) as [st1|]; [|done].
  destruct (parent e =? 0); [done|]. by apply (IH _ _ _ Hw).
Qed.

Lemma layoutDag_returns_spineEnds (fuel : nat) (w w' : World) :
  layoutDag fuel w = Some w' → headSpineEnds fuel w = true.
Proof.
  unfold layoutDag, headSpineEnds, dagOrder. intros Hl.
  destruct (last (head w)) as [hd|]; [|done].
  destruct (walk fuel fuel (tree w) (HeadSummary.headBlock hd) _) as [st|] eqn:Hw;
    [|done].
  by apply (walk_returns_spineEnds _ _ _ _ _ _ Hw).
Qed.

(** X24: a call that passes the ordering check returns exactly when the
    parent chain of the newest head block ends in the merged tree: the
    [while (true)] walk towards the root has no other way out than a
    pointer without entry or an entry with parent [0], and the recursion
    below each block on the way always ends. *)
Theorem accepted_call_returns_iff_chain_ends (w : World) (d : MemoryDiff.t) :
  rejects w d = None →
  (∃ fuel res, updateWorld fuel w d = Some res)
  ↔ (∃ k, headSpineEnds k (merged w d) = true).
Proof.
  intros Hacc. split.
  - intros (fuel & res & Hu). exists fuel. unfold updateWorld in Hu.
    rewrite Hacc in Hu.
    destruct (layoutDag fuel (merged w d)) as [lw|] eqn:Hl; [|done].
    by apply (layoutDag_returns_spineEnds _ _ _ Hl).
  - intros (k & Hk).
    destruct (updateWorld_returns k (enoughFuel k (merged w d)) w d Hacc Hk
                ltac:(done)) as (w' & Hu).
    eauto.
Qed.

Lemma accepted_call_returns_iff_chain_ends_witness :
  (∃ fuel res, updateWorld fuel genesisWorld (genesisDiff 1) = Some res)
  ↔ (∃ k, headSpineEnds k (merged genesisWorld (genesisDiff 1)) = true).
Proof.
  apply (accepted_call_returns_iff_chain_ends genesisWorld (genesisDiff 1)).
  vm_compute. reflexivity.
Defined.
